(** * Search algorithms over an abstract graph interface

    A shallow embedding of [1-bfs-graph.py] (breadth first search over a
    [Graph]) and [3-dijkstra.py] (Dijkstra's search over a [WeightedGraph],
    and [reconstruct_path]), with the properties of the two searches.

    Conventions of the embedding:
    - a Python [dict] is a [gmap]; [d[k]] on a missing key raises [KeyError];
    - a Python call either returns, raises, or (for a [while] loop, which is
      run with a bound on its number of iterations) runs out of fuel: the
      three constructors of [res];
    - [Location] is any type with decidable equality that can be a key of a
      dictionary ([Countable]);
    - edge costs are Python integers ([Z]), as in the weights of [diagram4]. *)

From stdpp Require Import gmap strings pretty list fin_maps fin_sets relations
  sorting.
From Stdlib Require Import ZArith Lia.

(** ** Outcomes *)

Inductive exn := KeyError | IndexError.

Inductive res (A : Type) : Type :=
  | Ret (a : A)
  | Raise (e : exn)
  | OutOfFuel.
Arguments Ret {A} a.
Arguments Raise {A} e.
Arguments OutOfFuel {A}.

Global Instance res_ret : MRet res := λ A a, Ret a.
Global Instance res_bind : MBind res := λ A B f m,
  match m with
  | Ret a => f a
  | Raise e => Raise e
  | OutOfFuel => OutOfFuel
  end.

(** [d[k]] for a dictionary [d]. *)
Definition getitem `{Countable K} {V} (d : gmap K V) (k : K) : res V :=
  match d !! k with
  | Some v => Ret v
  | None => Raise KeyError
  end.

(** ** The graph protocols *)

(** [class Graph(Protocol)]: [neighbors(id)] returns a list of locations (or
    raises, as [SimpleGraph.neighbors] does on a location that is not a key
    of [edges]). *)
Class Graph (Location G : Type) :=
  neighbors : G → Location → res (list Location).
Global Hint Mode Graph - ! : typeclass_instances.

(** [class WeightedGraph(Graph)]: adds [cost(from_id, to_id)]. *)
Class WeightedGraph (Location G : Type) := {
  weighted_graph_graph :: Graph Location G;
  cost : G → Location → Location → Z;
}.
Global Hint Mode WeightedGraph - ! : typeclass_instances.

Section graph_theory.
Context {Location G : Type} `{!Graph Location G} (graph : G).

(** The neighbours of a location, none when [neighbors] raises. *)
Definition nbrs (id : Location) : list Location :=
  match neighbors graph id with
  | Ret l => l
  | _ => []
  end.

(** [edge u v]: there is a directed edge from [u] to [v]. *)
Definition edge (u v : Location) : Prop := v ∈ nbrs u.

(** [reachable start v]: a directed path leads from [start] to [v]; the
    empty path makes [start] reachable from itself. *)
Definition reachable (start v : Location) : Prop := rtc edge start v.

(** A finite, well formed graph: a finite set of locations that contains
    the neighbours of each of its members, and on which [neighbors] does
    not raise. *)
Definition well_formed `{Countable Location} (nodes : gset Location) : Prop :=
  ∀ v, v ∈ nodes →
    ∃ l, neighbors graph v = Ret l ∧ ∀ w, w ∈ l → w ∈ nodes.

End graph_theory.

(** * Breadth first search ([1-bfs-graph.py]) *)

Module BFS.

(** [class SimpleGraph]: a dictionary from a location to the list of its
  neighbours. *)
Record SimpleGraph (Location : Type) `{Countable Location} := {
edges : gmap Location (list Location);
}.
Arguments edges {_ _ _} _.

(** [SimpleGraph.neighbors]: [return self.edges[id]]. *)
Global Instance SimpleGraph_neighbors `{Countable Location} :
Graph Location (SimpleGraph Location) := λ self id, getitem (edges self) id.

(** [example_graph]. *)
Definition example_graph : SimpleGraph string := {|
edges := list_to_map [
  ("A", ["B"]);
  ("B", ["C"]);
  ("C", ["B"; "D"; "F"]);
  ("D", ["C"; "E"]);
  ("E", ["F"]);
  ("F", [])
]%string
|}.

(** [class Queue]: a [collections.deque], appended to on the right and
  popped from the left. *)
Module Queue.
Definition t (T : Type) : Type := list T.
Definition new {T} : t T := [].
Definition empty {T} (self : t T) : bool :=
match self with [] => true | _ => false end.
Definition put {T} (self : t T) (x : T) : t T := self ++ [x].
(** [popleft] raises [IndexError] on an empty deque. *)
Definition get {T} (self : t T) : res (T * t T) :=
match self with
| [] => Raise IndexError
| x :: rest => Ret (x, rest)
end.
End Queue.

Section bfs.
Context `{Countable Location} {G : Type} `{!Graph Location G}.
Variable graph : G.

(** The variables of [breadth_first_search], and what it has printed:
  [visited] is the list of the locations printed by
  [print("  Visiting %s" % current)], in order. *)
Record state := State {
frontier : Queue.t Location;
reached : gmap Location bool;
visited : list Location;
}.

(** The body of [for next in graph.neighbors(current)]. *)
Definition visit_neighbor (st : state) (next : Location) : state :=
match reached st !! next with
| None =>
    {| frontier := Queue.put (frontier st) next;
       reached := <[next := true]> (reached st);
       visited := visited st |}
| Some _ => st
end.

(** One iteration of [while not frontier.empty()], entered with a
  frontier that is not empty. *)
Definition visit (st : state) : res state :=
'(current, rest) ← Queue.get (frontier st);
next_list ← neighbors graph current;
mret (foldl visit_neighbor
        {| frontier := rest;
           reached := reached st;
           visited := visited st ++ [current] |}
        next_list).

(** The [while] loop, for at most [fuel] iterations. *)
Fixpoint bfs_loop (fuel : nat) (st : state) : res state :=
if Queue.empty (frontier st) then Ret st
else match fuel with
     | O => OutOfFuel
     | S fuel => st' ← visit st; bfs_loop fuel st'
     end.

Definition bfs_init (start : Location) : state :=
{| frontier := Queue.put Queue.new start;
   reached := <[start := true]> ∅;
   visited := [] |}.

(** [breadth_first_search(graph, start)]. The Python function returns
  nothing; the embedding returns its variables at the end of the loop. *)
Definition breadth_first_search (fuel : nat) (start : Location) : res state :=
bfs_loop fuel (bfs_init start).

(** *** The run, step by step

  The same loop as a step relation, to speak of every point of a run
  and not only of its end. A point is made of the variables, of the
  position in the code (at the test of the [while], or inside the [for]
  with the neighbours still to come), and of the list of all the
  locations given to [frontier.put] so far. The last component is kept
  for the statements only: no step reads it. *)
Inductive control :=
| AtWhile
| InFor (rest : list Location).

Record point := Point {
vars : state;
ctl : control;
enqueued : list Location;
}.

Inductive step : point → point → Prop :=
| step_get st current rest next_list q :
    Queue.get (frontier st) = Ret (current, rest) →
    neighbors graph current = Ret next_list →
    step (Point st AtWhile q)
         (Point {| frontier := rest;
                   reached := reached st;
                   visited := visited st ++ [current] |}
                (InFor next_list) q)
| step_put st next rest q :
    reached st !! next = None →
    step (Point st (InFor (next :: rest)) q)
         (Point (visit_neighbor st next) (InFor rest) (q ++ [next]))
| step_skip st next rest q :
    is_Some (reached st !! next) →
    step (Point st (InFor (next :: rest)) q)
         (Point (visit_neighbor st next) (InFor rest) q)
| step_end_for st q :
    step (Point st (InFor []) q) (Point st AtWhile q).

Definition start_point (start : Location) : point :=
Point (bfs_init start) AtWhile [start].

(** [during start p]: [p] is a point of the run of
  [breadth_first_search(graph, start)]. *)
Definition during (start : Location) (p : point) : Prop :=
rtc step (start_point start) p.

(** *** Invariants *)

(** The edges out of [current] that the [for] loop has still to look at. *)
Definition pending_of (c : option (Location * list Location))
  (x w : Location) : Prop :=
match c with
| Some (current, rest) => x = current ∧ w ∈ rest
| None => False
end.

(** The invariant of the search: what is in the frontier is reached, what
  is reached is reachable, and a reached location is either waiting in
  the frontier or has all its neighbours reached (or pending). *)
Record bfs_inv (start : Location) (c : option (Location * list Location))
  (st : state) : Prop := {
inv_frontier : ∀ x, x ∈ frontier st → x ∈ dom (reached st);
inv_sound : ∀ x, x ∈ dom (reached st) → reachable graph start x;
inv_start : start ∈ dom (reached st);
inv_expanded : ∀ x, x ∈ dom (reached st) →
  x ∈ frontier st ∨
  ∀ w, edge graph x w → w ∈ dom (reached st) ∨ pending_of c x w;
inv_current : ∀ current rest, c = Some (current, rest) →
  current ∈ dom (reached st) ∧ ∀ w, w ∈ rest → edge graph current w;
}.


(** The invariant of the list of enqueued locations. *)
Definition enqueued_once (p : point) : Prop :=
NoDup (enqueued p) ∧ ∀ x, x ∈ enqueued p → x ∈ dom (reached (vars p)).
End bfs.

Arguments state Location {_ _}.
Arguments point Location {_ _}.
Arguments control Location : clear implicits.

End BFS.

(** * Dijkstra's search ([3-dijkstra.py]) *)

(** Python's [<] on the items of the priority queue. [heapq] compares the
    tuples [(priority, item)] with it, so that two entries of equal priority
    are ordered by their items. *)
Class Less (T : Type) := less : T → T → bool.
Global Hint Mode Less ! : typeclass_instances.

Global Instance Z_less : Less Z := Z.ltb.

(** Tuples are compared lexicographically: the first components that differ
    decide. *)
Global Instance pair_less `{EqDecision A, Less A, Less B} : Less (A * B) :=
  λ p q, if decide (p.1 = q.1) then less p.2 q.2 else less p.1 q.1.

Module Dijkstra.

Local Open Scope Z_scope.

(** ** Grids *)

Definition GridLocation : Type := Z * Z.

Record SquareGrid := {
width : Z;
height : Z;
walls : list GridLocation;
}.

Definition in_bounds (self : SquareGrid) (id : GridLocation) : bool :=
let '(x, y) := id in
bool_decide (0 ≤ x < width self) && bool_decide (0 ≤ y < height self).

Definition passable (self : SquareGrid) (id : GridLocation) : bool :=
bool_decide (id ∉ walls self).

(** [SquareGrid.neighbors]: east, west, north, south, reversed on the
  locations where [x + y] is even, without the locations out of bounds and
  the walls. *)
Definition grid_neighbors (self : SquareGrid) (id : GridLocation)
  : list GridLocation :=
let '(x, y) := id in
let neighbors := [(x + 1, y); (x - 1, y); (x, y - 1); (x, y + 1)] in
let neighbors :=
  if bool_decide ((x + y) `mod` 2 = 0) then reverse neighbors
  else neighbors in
let results := filter (λ id, in_bounds self id) neighbors in
let results := filter (λ id, passable self id) results in
results.

Global Instance SquareGrid_neighbors : Graph GridLocation SquareGrid :=
λ self id, Ret (grid_neighbors self id).

(** [class GridWithWeights(SquareGrid)]. *)
Record GridWithWeights := {
grid :> SquareGrid;
weights : gmap GridLocation Z;
}.

(** [GridWithWeights.cost]: [self.weights.get(to_node, 1)]. *)
Definition grid_cost (self : GridWithWeights) (from_node to_node : GridLocation)
  : Z :=
default 1 (weights self !! to_node).

Global Instance GridWithWeights_weighted :
  WeightedGraph GridLocation GridWithWeights := {|
weighted_graph_graph := λ self id, neighbors (grid self) id;
cost := grid_cost;
|}.

(** [diagram4]. *)
Definition diagram4 : GridWithWeights := {|
grid := {|
  width := 10;
  height := 10;
  walls := [(1, 7); (1, 8); (2, 7); (2, 8); (3, 7); (3, 8)];
|};
weights := list_to_map ((λ loc, (loc, 5)) <$>
  [(3, 4); (3, 5); (4, 1); (4, 2);
   (4, 3); (4, 4); (4, 5); (4, 6);
   (4, 7); (4, 8); (5, 1); (5, 2);
   (5, 3); (5, 4); (5, 5); (5, 6);
   (5, 7); (5, 8); (6, 2); (6, 3);
   (6, 4); (6, 5); (6, 6); (6, 7);
   (7, 3); (7, 4); (7, 5)]);
|}.

(** ** Utility functions for square grids *)

(** [from_id_width(id, width)]: [(id % width, id // width)], with Python's
    floor division and modulo. [None] stands for the [ZeroDivisionError]
    raised when [width] is 0. *)
Definition from_id_width (id width : Z) : option GridLocation :=
  if bool_decide (width = 0) then None
  else Some (id `mod` width, id `div` width).

(** Two locations are adjacent on the grid: they differ by one step east,
    west, north or south. *)
Definition adjacent (a b : GridLocation) : Prop :=
  Z.abs (a.1 - b.1) + Z.abs (a.2 - b.2) = 1.

(** The keyword arguments [**style] of [draw_grid]: each key may be absent. *)
Module Style.
Record t := {
  number : option (gmap GridLocation Z);
  point_to : option (gmap GridLocation (option GridLocation));
  path : option (list GridLocation);
  start : option GridLocation;
  goal : option GridLocation;
}.
End Style.

(** ["%-2d" % n]: the decimal digits of [n], with a sign when negative,
    followed by spaces up to two characters. *)
Definition format_left2 (n : Z) : string :=
  let digits := pretty n in
  digits +:+ String.concat "" (replicate (2 - String.length digits) " ").

(** [draw_tile(graph, id, style)]: every test that holds overwrites [r]. *)
Definition draw_tile (graph : SquareGrid) (id : GridLocation)
    (style : Style.t) : string :=
  let r := " . " in
  let r :=
    match Style.number style with
    | Some number =>
        match number !! id with
        | Some n => " " +:+ format_left2 n
        | None => r
        end
    | None => r
    end in
  let r :=
    match Style.point_to style with
    | Some point_to =>
        match point_to !! id with
        | Some (Some (x2, y2)) =>
            let '(x1, y1) := id in
            let r := if bool_decide (x2 = x1 + 1) then " > " else r in
            let r := if bool_decide (x2 = x1 - 1) then " < " else r in
            let r := if bool_decide (y2 = y1 + 1) then " v " else r in
            let r := if bool_decide (y2 = y1 - 1) then " ^ " else r in
            r
        | _ => r
        end
    | None => r
    end in
  let r :=
    match Style.path style with
    | Some path => if bool_decide (id ∈ path) then " @ " else r
    | None => r
    end in
  let r :=
    match Style.start style with
    | Some start => if bool_decide (id = start) then " A " else r
    | None => r
    end in
  let r :=
    match Style.goal style with
    | Some goal => if bool_decide (id = goal) then " Z " else r
    | None => r
    end in
  let r := if bool_decide (id ∈ walls graph) then "###" else r in
  r.

(** [s * n] for a string [s]; empty when [n] is negative. *)
Definition string_times (s : string) (n : Z) : string :=
  String.concat "" (replicate (Z.to_nat n) s).

(** [draw_grid(graph, **style)]: the lines it prints, in order. *)
Definition draw_grid (graph : SquareGrid) (style : Style.t) : list string :=
  [string_times "___" (width graph)]
  ++ ((λ y, String.concat ""
              ((λ x, draw_tile graph (x, y) style)
                 <$> seqZ 0 (width graph)))
        <$> seqZ 0 (height graph))
  ++ [string_times "~~~" (width graph)].

(** ** The priority queue *)

(** [heapq] is not part of the program. Its functions are modelled by what
  they do to the contents of the heap: [heappush] adds an item, [heappop]
  removes the smallest item for [<] and returns it, and raises
  [IndexError] on an empty heap. The list [elements] holds the contents of
  the heap, not the order in which [heapq] arranges them: when [<] is a
  strict total order on the items, as it is on integers, strings and tuples
  of them, the smallest item is unique, and what [heappop] returns and
  leaves depends on the contents only. *)
Module heapq.
Section heapq.
Context `{EqDecision T, Less T}.

Definition heappush (heap : list T) (item : T) : list T := item :: heap.

(** The smallest item of [x :: l]. *)
Fixpoint smallest (x : T) (l : list T) : T :=
match l with
| [] => x
| y :: l => smallest (if less y x then y else x) l
end.

(** [l] without the first occurrence of [x]. *)
Fixpoint remove_first (x : T) (l : list T) : list T :=
match l with
| [] => []
| y :: l => if decide (x = y) then l else y :: remove_first x l
end.

Definition heappop (heap : list T) : res (T * list T) :=
match heap with
| [] => Raise IndexError
| x :: l => let m := smallest x l in Ret (m, remove_first m heap)
end.
End heapq.
End heapq.

(** [class PriorityQueue]. *)
Module PriorityQueue.
Section PriorityQueue.
Context `{EqDecision T, Less T}.

Definition t : Type := list (Z * T).
Definition new : t := [].
Definition empty (self : t) : bool :=
match self with [] => true | _ => false end.
Definition put (self : t) (item : T) (priority : Z) : t :=
heapq.heappush self (priority, item).
Definition get (self : t) : res (T * t) :=
'(entry, rest) ← heapq.heappop self; mret (entry.2, rest).
End PriorityQueue.
Arguments t T : clear implicits.
End PriorityQueue.

Section dijkstra.
Context `{Countable Location, Less Location}.
Context {G : Type} `{!WeightedGraph Location G}.
Variable graph : G.

(** The variables of [dijkstra_search]. *)
Record state := State {
frontier : PriorityQueue.t Location;
came_from : gmap Location (option Location);
cost_so_far : gmap Location Z;
}.

(** The body of [for next in graph.neighbors(current)]. *)
Definition relax (current : Location) (st : state) (next : Location)
  : res state :=
cost_current ← getitem (cost_so_far st) current;
let new_cost := cost_current + cost graph current next in
if match cost_so_far st !! next with
   | None => true
   | Some cost_next => bool_decide (new_cost < cost_next)
   end
then
  let priority := new_cost in
  Ret {| cost_so_far := <[next := new_cost]> (cost_so_far st);
         frontier := PriorityQueue.put (frontier st) next priority;
         came_from := <[next := Some current]> (came_from st) |}
else Ret st.

(** The variables after a relaxation that has written the tables: the
  state that [relax] returns when its test holds. *)
Definition improved (current : Location) (st : state) (next : Location)
  : state :=
let new_cost :=
  default 0 (cost_so_far st !! current) + cost graph current next in
{| cost_so_far := <[next := new_cost]> (cost_so_far st);
   frontier := PriorityQueue.put (frontier st) next new_cost;
   came_from := <[next := Some current]> (came_from st) |}.

(** The [for] loop over the neighbours that remain. *)
Fixpoint for_neighbors (current : Location) (next_list : list Location)
  (st : state) : res state :=
match next_list with
| [] => Ret st
| next :: rest => st' ← relax current st next; for_neighbors current rest st'
end.

(** The [while] loop, for at most [fuel] iterations. Next to the variables
  it keeps [dequeued], the list of the locations that [frontier.get()]
  has returned, in order. The program has no such variable; the list is
  here for the statements that speak of the locations dequeued. *)
Fixpoint dijkstra_loop (goal : Location) (fuel : nat) (st : state)
  (dequeued : list Location) : res (state * list Location) :=
if PriorityQueue.empty (frontier st) then Ret (st, dequeued)
else match fuel with
     | O => OutOfFuel
     | S fuel =>
         '(current, rest) ← PriorityQueue.get (frontier st);
         let st := {| frontier := rest;
                      came_from := came_from st;
                      cost_so_far := cost_so_far st |} in
         let dequeued := dequeued ++ [current] in
         if decide (current = goal) then Ret (st, dequeued)
         else
           next_list ← neighbors graph current;
           st' ← for_neighbors current next_list st;
           dijkstra_loop goal fuel st' dequeued
     end.

Definition dijkstra_init (start : Location) : state :=
{| frontier := PriorityQueue.put PriorityQueue.new start 0;
   came_from := <[start := None]> ∅;
   cost_so_far := <[start := 0]> ∅ |}.

(** The run of [dijkstra_search], with all its variables at the end. *)
Definition dijkstra_run (fuel : nat) (start goal : Location)
  : res (state * list Location) :=
dijkstra_loop goal fuel (dijkstra_init start) [].

(** [dijkstra_search(graph, start, goal)]: returns
  [came_from, cost_so_far]. *)
Definition dijkstra_search (fuel : nat) (start goal : Location)
  : res (gmap Location (option Location) * gmap Location Z) :=
'(st, _) ← dijkstra_run fuel start goal;
mret (came_from st, cost_so_far st).

(** ** Path reconstruction *)

(** [while current != start: path.append(current);
  current = came_from[current]], for at most [fuel] iterations.
  [current] is a location or [None], the value that [came_from] gives to
  the start; [came_from[None]] raises [KeyError], [None] being no key. *)
Fixpoint walk_back (fuel : nat) (came_from : gmap Location (option Location))
  (start : Location) (current : option Location) (path : list Location)
  : res (list Location) :=
if decide (current = Some start) then Ret path
else match fuel with
     | O => OutOfFuel
     | S fuel =>
         match current with
         | None => Raise KeyError
         | Some c =>
             current ← getitem came_from c;
             walk_back fuel came_from start current (path ++ [c])
         end
     end.

(** [reconstruct_path(came_from, start, goal)]. *)
Definition reconstruct_path (fuel : nat)
  (came_from : gmap Location (option Location))
  (start goal : Location) : res (list Location) :=
match came_from !! goal with
| None => Ret []
| Some _ =>
    path ← walk_back fuel came_from start (Some goal) [];
    mret (reverse (path ++ [start]))
end.

(** ** Paths, costs, backpointers *)

(** [is_path path]: each location of [path] is a neighbour of the one
  before it. *)
Fixpoint is_path (path : list Location) : Prop :=
match path with
| [] => True
| a :: rest =>
    match rest with
    | [] => True
    | b :: _ => edge graph a b ∧ is_path rest
    end
end.


Definition path_from_to (start L : Location) (path : list Location) : Prop :=
head path = Some start ∧ last path = Some L ∧ is_path path.


(** The paths from [start], built edge by edge, with their costs. *)
Inductive walk (start : Location) : Location → Z → Prop :=
| walk_here : walk start start 0
| walk_edge u v c :
    walk start u c → edge graph u v → walk start v (c + cost graph u v).

(** The cost of every edge is non-negative. *)
Definition nonneg_costs : Prop :=
∀ u v, edge graph u v → 0 ≤ cost graph u v.

(** [ancestor came_from n v]: the location reached from [v] by following
  [n] backpointers, if there is one. *)
Fixpoint ancestor (came_from : gmap Location (option Location)) (n : nat)
  (v : Location) : option Location :=
match n with
| O => Some v
| S n =>
    match came_from !! v with
    | Some (Some u) => ancestor came_from n u
    | _ => None
    end
end.

(** The backpointers form a tree rooted at [start]: from every key,
  following backpointers reaches [start], and never comes back to the
  key it left. *)
Definition tree_rooted_at (start : Location)
  (came_from : gmap Location (option Location)) : Prop :=
∀ k, is_Some (came_from !! k) →
  (∃ n, ancestor came_from n k = Some start) ∧
  (∀ n, (0 < n)%nat → ancestor came_from n k ≠ Some k).

(** The precondition of [reconstruct_path]: every chain of lookups from a
  key reaches [start]. *)
Definition chains_reach (start : Location)
  (came_from : gmap Location (option Location)) : Prop :=
∀ k, is_Some (came_from !! k) → ∃ n, ancestor came_from n k = Some start.

(** ** The run, step by step *)

Inductive control :=
| AtWhile
| InFor (current : Location) (rest : list Location)
| Returned.

(** A point of a run: the variables, the position in the code, and the
  locations dequeued so far. *)
Record point := Point {
vars : state;
ctl : control;
dequeued : list Location;
}.

Definition without_frontier (st : state) (rest : PriorityQueue.t Location)
  : state :=
{| frontier := rest;
   came_from := came_from st;
   cost_so_far := cost_so_far st |}.

Inductive step (goal : Location) : point → point → Prop :=
| step_exit st dq :
    PriorityQueue.empty (frontier st) = true →
    step goal (Point st AtWhile dq) (Point st Returned dq)
| step_break st rest dq :
    PriorityQueue.get (frontier st) = Ret (goal, rest) →
    step goal (Point st AtWhile dq)
              (Point (without_frontier st rest) Returned (dq ++ [goal]))
| step_get st current rest next_list dq :
    PriorityQueue.get (frontier st) = Ret (current, rest) →
    current ≠ goal →
    neighbors graph current = Ret next_list →
    step goal (Point st AtWhile dq)
              (Point (without_frontier st rest) (InFor current next_list)
                     (dq ++ [current]))
| step_relax st st' current next rest dq :
    relax current st next = Ret st' →
    step goal (Point st (InFor current (next :: rest)) dq)
              (Point st' (InFor current rest) dq)
| step_end_for st current dq :
    step goal (Point st (InFor current []) dq) (Point st AtWhile dq).

Definition start_point (start : Location) : point :=
Point (dijkstra_init start) AtWhile [].

(** [during start goal p]: [p] is a point of the run of
  [dijkstra_search(graph, start, goal)]. *)
Definition during (start goal : Location) (p : point) : Prop :=
rtc (step goal) (start_point start) p.

(** ** Invariants *)

(** The edge from [v] to [w] has been relaxed. *)
Definition relaxed (st : state) (v w : Location) : Prop :=
∃ cv cw, cost_so_far st !! v = Some cv ∧ cost_so_far st !! w = Some cw ∧
         cw ≤ cv + cost graph v w.

(** The edges out of [current] that the [for] loop has still to relax. *)
Definition pending_of (c : option (Location * list Location))
  (v w : Location) : Prop :=
match c with
| Some (current, rest) => v = current ∧ w ∈ rest
| None => False
end.

(** The invariant of the search. [closed] is the set of the locations
  dequeued so far, [c] the location being expanded with its neighbours
  still to come. *)
Record dijkstra_inv (start : Location) (closed : gset Location)
  (c : option (Location * list Location)) (st : state) : Prop := {
inv_keys : dom (came_from st) = dom (cost_so_far st);
inv_start_cost : cost_so_far st !! start = Some 0;
inv_start_from : came_from st !! start = Some None;
inv_walk : ∀ v cv, cost_so_far st !! v = Some cv → walk start v cv;
inv_closed : ∀ v, v ∈ closed →
  ∃ cv, cost_so_far st !! v = Some cv ∧ ∀ c', walk start v c' → cv ≤ c';
inv_relaxed : ∀ v w, v ∈ closed → edge graph v w →
  relaxed st v w ∨ pending_of c v w;
inv_open : ∀ v cv, cost_so_far st !! v = Some cv → v ∉ closed →
  (cv, v) ∈ frontier st;
inv_frontier : ∀ p v, (p, v) ∈ frontier st →
  ∃ cv, cost_so_far st !! v = Some cv ∧ cv ≤ p;
inv_from : ∀ v u, came_from st !! v = Some (Some u) →
  u ∈ closed ∧ edge graph u v ∧ v ≠ start ∧
  ∃ cu, cost_so_far st !! u = Some cu ∧
        cost_so_far st !! v = Some (cu + cost graph u v);
inv_root : ∀ v, came_from st !! v = Some None → v = start;
inv_tree : chains_reach start (came_from st);
inv_current : ∀ current rest, c = Some (current, rest) →
  current ∈ closed ∧ ∀ w, w ∈ rest → edge graph current w;
}.

(** The invariant at a point of a run. After the [break] the frontier has
  lost the entry of the goal; the tables are those of the invariant. *)
Definition point_inv (start : Location) (p : point) : Prop :=
match ctl p with
| AtWhile => dijkstra_inv start (list_to_set (dequeued p)) None (vars p)
| InFor current rest =>
    dijkstra_inv start (list_to_set (dequeued p)) (Some (current, rest))
                 (vars p)
| Returned =>
    ∃ closed fr,
      dijkstra_inv start closed None (without_frontier (vars p) fr)
end.


(** What the loop has established when it ends: the invariant held at the
  last test of the [while], and either the frontier was empty and the
  goal was never dequeued, or the goal was dequeued last. *)
Definition dijkstra_post (start goal : Location) (st' : state)
  (dq' : list Location) : Prop :=
∃ dq fr,
  dijkstra_inv start (list_to_set dq) None (without_frontier st' fr) ∧
  (goal ∉ dq) ∧
  ((fr = [] ∧ frontier st' = [] ∧ dq' = dq) ∨
   (PriorityQueue.get fr = Ret (goal, frontier st') ∧ dq' = dq ++ [goal])).
End dijkstra.

Arguments state Location {_ _}.
Arguments point Location {_ _}.
Arguments control Location : clear implicits.

End Dijkstra.

(** * Well formed graphs, and the graphs of the examples *)



(** The locations of [example_graph]. *)
Definition example_nodes : list string :=
  ["A"; "B"; "C"; "D"; "E"; "F"]%string.

(** The locations of a grid: those in bounds that are no wall. *)
Definition grid_locations (self : Dijkstra.SquareGrid)
    : list Dijkstra.GridLocation :=
  filter (λ id, Dijkstra.passable self id)
    (x ← seqZ 0 (Dijkstra.width self);
     y ← seqZ 0 (Dijkstra.height self);
     [(x, y)]).

(** A weighted graph over integers given by its lists of successors and a
    cost function, for examples where the cost depends on both ends of an
    edge. *)
Record Weighted := {
  successors : gmap Z (list Z);
  edge_cost : Z → Z → Z;
}.

Global Instance Weighted_weighted : WeightedGraph Z Weighted := {|
  weighted_graph_graph := λ self id, getitem (successors self) id;
  cost := edge_cost;
|}.

(** Three locations: from 0 to 1 at cost 5, from 0 to 2 at cost 1 and from
    2 to 1 at cost 1, so that going to 1 through 2 is cheaper. *)
Definition detour : Weighted := {|
  successors := list_to_map [(0, [1; 2]); (1, []); (2, [1])]%Z;
  edge_cost := λ u v, if bool_decide (u = 0 ∧ v = 1)%Z then 5%Z else 1%Z;
|}.

(** A table of backpointers whose chains reach "A". *)
Definition example_table : gmap string (option string) :=
  list_to_map [("A", None); ("B", Some "A"); ("C", Some "B")]%string.

(** Two backpointers that point to each other. *)
Definition cyclic_table : gmap string (option string) :=
  list_to_map [("A", Some "B"); ("B", Some "A")]%string.

(** * Further invariants *)

(** What holds of the variables of [dijkstra_search] whatever the costs are:
    a recorded cost is the cost of a path from [start], a backpointer is an
    edge of the graph from a location that has an entry, the frontier holds
    locations that have an entry, and the two tables have the same keys. *)
Definition sound_inv `{Countable Location, Less Location} {G : Type}
    `{!WeightedGraph Location G} (graph : G) (start : Location)
    (st : Dijkstra.state Location) : Prop :=
  (∀ v cv, Dijkstra.cost_so_far st !! v = Some cv →
     Dijkstra.walk graph start v cv) ∧
  (∀ v u, Dijkstra.came_from st !! v = Some (Some u) →
     edge graph u v ∧ is_Some (Dijkstra.cost_so_far st !! u)) ∧
  (∀ e, e ∈ Dijkstra.frontier st →
     is_Some (Dijkstra.cost_so_far st !! e.2)) ∧
  dom (Dijkstra.came_from st) = dom (Dijkstra.cost_so_far st).

(** Each location of [path] is the backpointer of the one after it. *)
Fixpoint backlinked `{Countable Location}
    (came_from : gmap Location (option Location)) (path : list Location)
    : Prop :=
  match path with
  | [] => True
  | a :: rest =>
      match rest with
      | [] => True
      | b :: _ => came_from !! b = Some (Some a) ∧ backlinked came_from rest
      end
  end.

(** ** The order of a breadth first search *)

(** [distance graph start v n]: the shortest sequences of edges from
    [start] to [v] have [n] edges. *)
Definition distance {Location G : Type} `{!Graph Location G} (graph : G)
    (start v : Location) (n : nat) : Prop :=
  nsteps (edge graph) n start v ∧ ∀ m, nsteps (edge graph) m start v → n ≤ m.

(** [a] is not further from [start] than [b]. *)
Definition closer {Location G : Type} `{!Graph Location G} (graph : G)
    (start a b : Location) : Prop :=
  ∀ da db, distance graph start a da → distance graph start b db → da ≤ db.

(** The location whose neighbours are being enqueued, or are the next to
    be: [current] inside the [for] loop, the head of the frontier at the
    test of the [while]. *)
Definition base_of `{Countable Location}
    (c : option (Location * list Location)) (st : BFS.state Location)
    (base : Location) : Prop :=
  match c with
  | Some (current, _) => base = current
  | None => head (BFS.frontier st) = Some base
  end.

(** The locations come out of the queue in the order of their distances
    to [start]: the visited locations followed by the frontier are sorted
    by distance, and the frontier spans at most two consecutive
    distances. *)
Record level_inv `{Countable Location} {G : Type} `{!Graph Location G}
    (graph : G) (start : Location) (c : option (Location * list Location))
    (st : BFS.state Location) : Prop := {
level_exists : ∀ a, a ∈ BFS.visited st ++ BFS.frontier st →
  ∃ d, distance graph start a d;
level_sorted :
  StronglySorted (closer graph start) (BFS.visited st ++ BFS.frontier st);
level_span : ∀ base b dbase db,
  base_of c st base → b ∈ BFS.frontier st →
  distance graph start base dbase → distance graph start b db →
  db ≤ S dbase;
level_current : ∀ current rest,
  c = Some (current, rest) → last (BFS.visited st) = Some current;
level_reached : ∀ x,
  x ∈ dom (BFS.reached st) ↔ x ∈ BFS.visited st ++ BFS.frontier st;
}.


(** * Proofs *)

Local Set Warnings "-clear-no-such-hyp".

Section graph_facts.
Context `{Countable Location} {G : Type} `{!Graph Location G} (graph : G).
Implicit Types nodes : gset Location.

Lemma well_formed_nbrs nodes v :
  well_formed graph nodes → v ∈ nodes → neighbors graph v = Ret (nbrs graph v).
Proof.
  intros Hwf Hv. destruct (Hwf v Hv) as (l & Hl & _).
  unfold nbrs. by rewrite Hl.
Qed.



Lemma neighbors_edge u l w :
  neighbors graph u = Ret l → w ∈ l ↔ edge graph u w.
Proof. intros Hl. unfold edge, nbrs. by rewrite Hl. Qed.
End graph_facts.

(** ** Breadth first search *)

Section bfs_proofs.
Import BFS.
Context `{Countable Location} {G : Type} `{!Graph Location G} (graph : G).
Implicit Types (st : state Location) (nodes : gset Location).
Implicit Types (start current next : Location).

Lemma visit_neighbor_dom st next :
  dom (reached (visit_neighbor st next)) = {[next]} ∪ dom (reached st).
Proof.
  unfold visit_neighbor. destruct (reached st !! next) eqn:E; simpl.
  - apply (elem_of_dom_2 (D := gset Location)) in E. set_solver.
  - by rewrite dom_insert_L.
Qed.

Lemma visit_neighbor_frontier st next :
  frontier (visit_neighbor st next) =
    match reached st !! next with
    | Some _ => frontier st
    | None => frontier st ++ [next]
    end.
Proof. unfold visit_neighbor. by destruct (reached st !! next). Qed.

(** One turn of the [for] loop keeps the invariant. *)
Lemma visit_neighbor_inv start current next rest st :
  bfs_inv graph start (Some (current, next :: rest)) st →
  bfs_inv graph start (Some (current, rest)) (visit_neighbor st next).
Proof.
  intros [Hf Hs H0 He Hc].
  destruct (Hc _ _ eq_refl) as [Hcur Hrest].
  assert (edge graph current next) as Hedge by (apply Hrest; left).
  split.
  - intros x. rewrite visit_neighbor_dom, visit_neighbor_frontier.
    destruct (reached st !! next); [set_solver|].
    rewrite elem_of_app, list_elem_of_singleton. set_solver.
  - intros x. rewrite visit_neighbor_dom, elem_of_union, elem_of_singleton.
    intros [->|?]; [|by auto].
    eapply rtc_r; [by apply Hs|done].
  - rewrite visit_neighbor_dom. set_solver.
  - intros x. rewrite visit_neighbor_dom, visit_neighbor_frontier.
    rewrite elem_of_union, elem_of_singleton. intros [->|Hx].
    + destruct (reached st !! next) eqn:E.
      * apply (elem_of_dom_2 (D := gset Location)) in E.
        destruct (He _ E) as [?|Hw]; [by left|right].
        intros w Hw'. destruct (Hw w Hw') as [?|[-> Hin]]; [set_solver|].
        apply elem_of_cons in Hin as [->|?]; [set_solver|].
        by right.
      * left. set_solver.
    + destruct (He _ Hx) as [?|Hw].
      * left. destruct (reached st !! next); set_solver.
      * right. intros w Hw'.
        destruct (Hw w Hw') as [?|[-> Hin]]; [set_solver|].
        apply elem_of_cons in Hin as [->|?]; [set_solver|].
        by right.
  - intros ?? [= <- <-]. rewrite visit_neighbor_dom. split; [set_solver|].
    intros w ?. apply Hrest. by right.
Qed.

Lemma bfs_for_inv start current rest st :
  bfs_inv graph start (Some (current, rest)) st →
  bfs_inv graph start (Some (current, [])) (foldl visit_neighbor st rest).
Proof.
  revert st. induction rest as [|next rest IH]; simpl; intros st Hinv; [done|].
  by apply IH, visit_neighbor_inv.
Qed.

(** Taking [current] out of the frontier, with all its neighbours pending. *)
Lemma bfs_get_inv start current rest st next_list :
  bfs_inv graph start None st →
  Queue.get (frontier st) = Ret (current, rest) →
  neighbors graph current = Ret next_list →
  bfs_inv graph start (Some (current, next_list))
    {| frontier := rest; reached := reached st;
       visited := visited st ++ [current] |}.
Proof.
  intros [Hf Hs H0 He _] Hget Hn.
  destruct (frontier st) as [|c r] eqn:Efr; simplify_eq/=.
  split; simpl.
  - intros x Hx. apply Hf. by right.
  - done.
  - done.
  - intros x Hx. destruct (He _ Hx) as [Hin|Hw].
    + apply elem_of_cons in Hin as [->|?]; [|by left].
      right. intros w Hw. right. split; [done|].
      by apply (neighbors_edge graph current).
    + right. intros w Hw'. destruct (Hw w Hw') as [?|[]]. by left.
  - intros ?? [= <- <-]. split; [apply Hf; by left|].
    intros w. by apply neighbors_edge.
Qed.

Lemma bfs_end_for_inv start current st :
  bfs_inv graph start (Some (current, [])) st → bfs_inv graph start None st.
Proof.
  intros [Hf Hs H0 He _]. split; try done.
  intros x Hx. destruct (He _ Hx) as [?|Hw]; [by left|right].
  intros w Hw'. destruct (Hw w Hw') as [?|[_ Hin]]; [by left|].
  by apply elem_of_nil in Hin.
Qed.

Lemma visit_inv start st st' :
  bfs_inv graph start None st → visit graph st = Ret st' →
  bfs_inv graph start None st'.
Proof.
  intros Hinv Hv. unfold visit in Hv.
  destruct (Queue.get (frontier st)) as [[current rest]| |] eqn:Hget;
    simplify_eq/=.
  destruct (neighbors graph current) as [next_list| |] eqn:Hn; simplify_eq/=.
  injection Hv as <-.
  eapply bfs_end_for_inv, bfs_for_inv, bfs_get_inv; eauto.
Qed.

Lemma bfs_init_inv start : bfs_inv graph start None (bfs_init start).
Proof.
  split; simpl.
  - intros x. unfold Queue.put, Queue.new. set_solver.
  - intros x. rewrite dom_insert_L, dom_empty_L. intros ?.
    assert (x = start) as -> by set_solver. apply rtc_refl.
  - set_solver.
  - intros x. rewrite dom_insert_L, dom_empty_L. intros ?. left.
    unfold Queue.put, Queue.new. set_solver.
  - done.
Qed.

(** When the loop ends, the reached locations are the reachable ones. *)
Lemma bfs_inv_exact start st :
  bfs_inv graph start None st → Queue.empty (frontier st) = true →
  ∀ L, L ∈ dom (reached st) ↔ reachable graph start L.
Proof.
  intros [Hf Hs H0 He _] Hempty L. split; [by apply Hs|].
  destruct (frontier st) eqn:Efr; [|done].
  revert L. apply (rtc_ind_r (λ L, L ∈ dom (reached st))); [done|].
  intros y z _ Hyz IH.
  destruct (He _ IH) as [Hin|Hw]; [by apply elem_of_nil in Hin|].
  by destruct (Hw _ Hyz) as [?|[]].
Qed.

Lemma bfs_loop_inv start fuel st st' :
  bfs_inv graph start None st → bfs_loop graph fuel st = Ret st' →
  bfs_inv graph start None st' ∧ Queue.empty (frontier st') = true.
Proof.
  revert st. induction fuel as [|fuel IH]; intros st Hinv; simpl;
    destruct (Queue.empty (frontier st)) eqn:Hempty; try done.
  - by intros [= <-].
  - by intros [= <-].
  - destruct (visit graph st) as [st1| |] eqn:Hv; [|done..]. simpl.
    intros Hloop. eapply IH; [|done]. by eapply visit_inv.
Qed.

(** *** Termination *)






(** *** Every point of a run *)

Lemma step_enqueued_once p p' :
  step graph p p' → enqueued_once p → enqueued_once p'.
Proof.
  unfold enqueued_once.
  destruct 1 as [st current rest nl q Hget Hn|st next rest q Hnone
                |st next rest q Hsome|st q]; simpl; try done.
  - intros [Hnd Hin]. rewrite visit_neighbor_dom. split.
    + apply NoDup_app. split_and!; [done| |apply NoDup_singleton].
      intros x Hx ->%list_elem_of_singleton.
      by apply Hin, (not_elem_of_dom (D := gset Location)) in Hx.
    + intros x. rewrite elem_of_app, list_elem_of_singleton. set_solver.
  - intros [Hnd Hin]. rewrite visit_neighbor_dom. set_solver.
Qed.

Lemma step_enqueued_eq p p' :
  step graph p p' →
  enqueued p = visited (vars p) ++ frontier (vars p) →
  enqueued p' = visited (vars p') ++ frontier (vars p').
Proof.
  destruct 1 as [st current rest nl q Hget Hn|st next rest q Hnone
                |st next rest q [b Hsome]|st q]; simpl; try done.
  - destruct (frontier st); simplify_eq/=. by rewrite <-app_assoc.
  - unfold visit_neighbor. rewrite Hnone. simpl. intros ->.
    by rewrite <-app_assoc.
  - unfold visit_neighbor. by rewrite Hsome.
Qed.

(** The executable loop goes through the points of the step relation. *)
Lemma bfs_for_steps st rest q :
  ∃ q', rtc (step graph) (Point st (InFor rest) q)
                         (Point (foldl visit_neighbor st rest) (InFor []) q').
Proof.
  revert st q. induction rest as [|next rest IH]; simpl; intros st q.
  - by exists q.
  - destruct (reached st !! next) eqn:E.
    + destruct (IH (visit_neighbor st next) q) as [q' Hq'].
      exists q'. eapply rtc_l; [|done]. by apply step_skip.
    + destruct (IH (visit_neighbor st next) (q ++ [next])) as [q' Hq'].
      exists q'. eapply rtc_l; [|done]. by apply step_put.
Qed.

Lemma bfs_loop_steps fuel st st' q :
  bfs_loop graph fuel st = Ret st' →
  ∃ q', rtc (step graph) (Point st AtWhile q) (Point st' AtWhile q').
Proof.
  revert st q. induction fuel as [|fuel IH]; intros st q; simpl;
    destruct (Queue.empty (frontier st)) eqn:Hempty; try done.
  - intros [= <-]. by exists q.
  - intros [= <-]. by exists q.
  - unfold visit.
    destruct (Queue.get (frontier st)) as [[current rest]| |] eqn:Hget;
      [|done..]. simpl.
    destruct (neighbors graph current) as [next_list| |] eqn:Hn; [|done..].
    simpl. intros Hloop.
    edestruct bfs_for_steps as [q1 Hfor].
    destruct (IH _ q1 Hloop) as [q' Hq']. exists q'.
    eapply rtc_l; [by eapply step_get|].
    etrans; [apply Hfor|].
    eapply rtc_l; [apply step_end_for|done].
Qed.

(** *** The claims *)

(** The same for every run that ends, in any graph. *)
Lemma bfs_reached_exact_partial start fuel st' :
  breadth_first_search graph fuel start = Ret st' →
  ∀ L, L ∈ dom (reached st') ↔ reachable graph start L.
Proof.
  intros Hrun.
  destruct (bfs_loop_inv start _ _ _ (bfs_init_inv start) Hrun).
  by apply bfs_inv_exact.
Qed.



(** C7. At every point of a run of [breadth_first_search(graph, start)],
    no location occurs twice in the list of the locations that were given
    to [frontier.put]: each location is enqueued at most once. That list
    is the list of the visited locations followed by the frontier. *)
Theorem bfs_enqueued_at_most_once start p :
  during graph start p →
  NoDup (enqueued p) ∧ enqueued p = visited (vars p) ++ frontier (vars p).
Proof.
  unfold during. intros Hrun.
  cut (enqueued_once p ∧
       enqueued p = visited (vars p) ++ frontier (vars p)).
  { by intros [[? _] ?]. }
  revert p Hrun. apply rtc_ind_r.
  - split; [|done]. split; simpl.
    + apply NoDup_singleton.
    + intros x ->%list_elem_of_singleton. set_solver.
  - intros p p' _ Hstep [Honce Heq].
    eauto using step_enqueued_once, step_enqueued_eq.
Qed.

(** The end of an executable run is a point of the step relation. *)
Lemma bfs_end_during start fuel st' :
  breadth_first_search graph fuel start = Ret st' →
  ∃ q, during graph start (Point st' AtWhile q).
Proof. apply bfs_loop_steps. Qed.
End bfs_proofs.

(** ** The priority queue *)

Section heapq_proofs.
Import Dijkstra.
Local Open Scope Z_scope.
Context `{EqDecision T, Less T}.
Implicit Types (e : Z * T) (heap : list (Z * T)).

Lemma less_true_priority e1 e2 : less e1 e2 = true → e1.1 ≤ e2.1.
Proof.
  unfold less, pair_less. case_decide as Heq; [lia|].
  unfold less, Z_less. lia.
Qed.

Lemma less_false_priority e1 e2 : less e1 e2 = false → e2.1 ≤ e1.1.
Proof.
  unfold less, pair_less. case_decide as Heq; [lia|].
  unfold less, Z_less. lia.
Qed.

Lemma smallest_elem e heap : heapq.smallest e heap ∈ e :: heap.
Proof.
  revert e. induction heap as [|y heap IH]; intros e; simpl; [by left|].
  specialize (IH (if less y e then y else e)).
  destruct (less y e); set_solver.
Qed.

Lemma smallest_priority e heap e' :
  e' ∈ e :: heap → (heapq.smallest e heap).1 ≤ e'.1.
Proof.
  revert e e'. induction heap as [|y heap IH]; intros e e'; simpl.
  - intros ->%list_elem_of_singleton. lia.
  - intros Hin.
    assert ((heapq.smallest (if less y e then y else e) heap).1
            ≤ (if less y e then y else e).1) as Hle by (apply IH; by left).
    destruct (less y e) eqn:Hless.
    + apply less_true_priority in Hless.
      apply elem_of_cons in Hin as [->|Hin]; [lia|].
      apply elem_of_cons in Hin as [->|Hin]; [done|].
      apply IH. by right.
    + apply less_false_priority in Hless.
      apply elem_of_cons in Hin as [->|Hin]; [done|].
      apply elem_of_cons in Hin as [->|Hin]; [lia|].
      apply IH. by right.
Qed.

Lemma remove_first_subseteq (x : Z * T) heap e :
  e ∈ heapq.remove_first x heap → e ∈ heap.
Proof.
  induction heap as [|y heap IH]; simpl; [done|].
  case_decide; set_solver.
Qed.

Lemma remove_first_cases (x : Z * T) heap e :
  e ∈ heap → e = x ∨ e ∈ heapq.remove_first x heap.
Proof.
  induction heap as [|y heap IH]; simpl; [by intros ?%elem_of_nil|].
  case_decide; set_solver.
Qed.

Lemma remove_first_length (x : Z * T) heap :
  x ∈ heap → length heap = S (length (heapq.remove_first x heap)).
Proof.
  induction heap as [|y heap IH]; simpl; [by intros ?%elem_of_nil|].
  case_decide as Heq; [done|].
  intros [?|Hin]%elem_of_cons; [done|]. simpl. by rewrite <-IH.
Qed.

(** [frontier.get()] returns an item whose priority is the lowest of the
    queue, and removes one entry. *)
Lemma get_spec heap (current : T) rest :
  PriorityQueue.get heap = Ret (current, rest) →
  ∃ p, (p, current) ∈ heap ∧
       (∀ e, e ∈ rest → e ∈ heap) ∧
       (∀ e, e ∈ heap → e = (p, current) ∨ e ∈ rest) ∧
       (∀ e, e ∈ heap → p ≤ e.1) ∧
       length heap = S (length rest).
Proof.
  unfold PriorityQueue.get, heapq.heappop.
  destruct heap as [|x l]; [done|]. simpl. intros [= <- <-].
  set (m := heapq.smallest x l).
  assert (m ∈ x :: l) as Hm by apply smallest_elem.
  exists m.1. rewrite <-surjective_pairing. split_and!.
  - done.
  - intros e. apply (remove_first_subseteq m (x :: l)).
  - intros e. apply (remove_first_cases m (x :: l)).
  - intros e. apply smallest_priority.
  - by apply (remove_first_length m (x :: l)).
Qed.

Lemma get_empty heap :
  PriorityQueue.empty heap = false →
  ∃ current rest, PriorityQueue.get heap = Ret (current : T, rest).
Proof. destruct heap; [done|]. intros _. by eexists _, _. Qed.
End heapq_proofs.

(** ** Path reconstruction *)

Section reconstruct_proofs.
Import Dijkstra.
Context `{Countable Location}.
Implicit Types (came_from : gmap Location (option Location)).
Implicit Types (start goal current : Location) (path : list Location).

Lemma ancestor_succ came_from n v :
  ancestor came_from (S n) v =
    ancestor came_from n v ≫= ancestor came_from 1.
Proof.
  revert v. induction n as [|n IH]; intros v.
  - simpl. by destruct (came_from !! v) as [[u|]|].
  - change (ancestor came_from (S (S n)) v)
      with (match came_from !! v with
            | Some (Some u) => ancestor came_from (S n) u
            | _ => None
            end).
    change (ancestor came_from (S n) v)
      with (match came_from !! v with
            | Some (Some u) => ancestor came_from n u
            | _ => None
            end).
    destruct (came_from !! v) as [[u|]|]; [apply IH|done..].
Qed.

(** A key from which the chain reaches a root is on no cycle. *)
Lemma ancestor_no_cycle came_from start :
  came_from !! start = Some None →
  ∀ m k, ancestor came_from m k = Some start →
  ∀ n, (0 < n)%nat → ancestor came_from n k ≠ Some k.
Proof.
  intros Hroot. induction m as [|m IH]; intros k Hk n Hn.
  - injection Hk as ->. destruct n; [lia|]. simpl. by rewrite Hroot.
  - simpl in Hk. destruct (came_from !! k) as [[u|]|] eqn:Ek; [|done..].
    destruct n as [|n]; [lia|]. simpl. rewrite Ek. intros Hcycle.
    apply (IH u Hk (S n)); [lia|].
    rewrite ancestor_succ, Hcycle. simpl. by rewrite Ek.
Qed.

(** The walk of [reconstruct_path] from a location whose chain reaches
    [start] in [n] steps ends within [n] iterations. *)
Lemma walk_back_terminates came_from start n v path :
  ancestor came_from n v = Some start →
  ∃ path', walk_back n came_from start (Some v) path = Ret path'.
Proof.
  revert v path. induction n as [|n IH]; intros v path; simpl.
  - intros [= ->]. rewrite decide_True by done. eauto.
  - intros Hanc. case_decide; [eauto|].
    destruct (came_from !! v) as [[u|]|] eqn:Ev; [|done..].
    unfold getitem. rewrite Ev. simpl. by apply IH.
Qed.

(** C6. [reconstruct_path(came_from, start, goal)] terminates, and raises
    no error, for every table whose chains of lookups all reach [start]. *)
Theorem reconstruct_path_terminates came_from start goal :
  chains_reach start came_from →
  ∃ fuel path, reconstruct_path fuel came_from start goal = Ret path.
Proof.
  intros Hchains. unfold reconstruct_path.
  destruct (came_from !! goal) as [b|] eqn:Egoal.
  - destruct (Hchains goal) as [n Hn]; [by rewrite Egoal|].
    destruct (walk_back_terminates came_from start n goal [] Hn)
      as [path' Hpath].
    exists n. rewrite Hpath. simpl. eauto.
  - by exists O, [].
Qed.

(** C8, as amended. When [start == goal] and [came_from] has an entry for
    [goal], [reconstruct_path(came_from, start, goal)] returns the
    sequence made of [start] alone. *)
Theorem reconstruct_path_start_is_goal fuel came_from start goal :
  start = goal → is_Some (came_from !! goal) →
  reconstruct_path fuel came_from start goal = Ret [start].
Proof.
  intros <- [b Hb]. unfold reconstruct_path. rewrite Hb.
  destruct fuel; simpl; by rewrite decide_True.
Qed.

(** Without an entry for [goal] the result is the empty sequence, also
    when [start == goal]. *)
Lemma reconstruct_path_absent fuel came_from start goal :
  came_from !! goal = None →
  reconstruct_path fuel came_from start goal = Ret [].
Proof. intros Hgoal. unfold reconstruct_path. by rewrite Hgoal. Qed.
(** Writing the backpointer of a location that is not closed leaves the
    chains of the closed locations as they are. *)
Lemma ancestor_insert_closed came_from (closed : gset Location)
    start next current :
  (∀ v u, came_from !! v = Some (Some u) → u ∈ closed) →
  next ∉ closed →
  ∀ n x, x ∈ closed → ancestor came_from n x = Some start →
    ancestor (<[next := Some current]> came_from) n x = Some start.
Proof.
  intros Hfrom Hnext. induction n as [|n IH]; intros x Hx; simpl; [done|].
  destruct (came_from !! x) as [[u|]|] eqn:Ex; [|done..].
  rewrite lookup_insert_ne, Ex by set_solver. eauto.
Qed.

(** Pointing [next] to a location whose chain reaches [start] keeps every
    chain that reached [start] doing so. *)
Lemma ancestor_insert_reach came_from start next current m :
  ancestor (<[next := Some current]> came_from) m current = Some start →
  ∀ n x, ancestor came_from n x = Some start →
    ∃ n', ancestor (<[next := Some current]> came_from) n' x = Some start.
Proof.
  intros Hcur. induction n as [|n IH]; intros x; simpl.
  - intros [= ->]. by exists O.
  - destruct (decide (x = next)) as [->|Hne].
    + intros _. exists (S m). simpl. by rewrite lookup_insert_eq.
    + destruct (came_from !! x) as [[u|]|] eqn:Ex; [|done..].
      intros [n' Hn']%IH. exists (S n'). simpl.
      by rewrite lookup_insert_ne, Ex.
Qed.
End reconstruct_proofs.

(** ** Paths and their costs *)

Section path_proofs.
Import Dijkstra.
Local Open Scope Z_scope.
Context {Location G : Type} `{!WeightedGraph Location G} (graph : G).
Implicit Types (path : list Location) (start u v : Location).







End path_proofs.

(** ** Dijkstra's search *)

Section dijkstra_proofs.
Import Dijkstra.
Local Open Scope Z_scope.
Context `{Countable Location, Less Location}.
Context {G : Type} `{!WeightedGraph Location G} (graph : G).
Implicit Types (st : state Location) (nodes closed : gset Location).
Implicit Types (start goal current next u v w : Location).
Implicit Types (p : point Location).

(** *** The two cases of a relaxation *)

Lemma relax_cases current st next st' :
  relax graph current st next = Ret st' →
  ∃ cc, cost_so_far st !! current = Some cc ∧
    ((st' = st ∧
      ∃ cn, cost_so_far st !! next = Some cn ∧
            cn ≤ cc + cost graph current next) ∨
     (st' = improved graph current st next ∧
      ∀ cn, cost_so_far st !! next = Some cn →
            cc + cost graph current next < cn)).
Proof.
  unfold relax, getitem, improved.
  destruct (cost_so_far st !! current) as [cc|] eqn:Ecur; [|done]. simpl.
  intros Hst'. exists cc. split; [done|].
  destruct (cost_so_far st !! next) as [cn|] eqn:Enext.
  - case_bool_decide as Hlt.
    + right. split; [congruence|]. by intros ? [= <-].
    + left. split; [congruence|]. exists cn. split; [done|lia].
  - right. split; [congruence|done].
Qed.

Lemma relax_returns current st next cc :
  cost_so_far st !! current = Some cc →
  ∃ st', relax graph current st next = Ret st'.
Proof.
  intros Ecur. unfold relax, getitem. rewrite Ecur. simpl.
  destruct (match cost_so_far st !! next with
            | Some cost_next =>
                bool_decide (cc + cost graph current next < cost_next)
            | None => true
            end); eauto.
Qed.

(** *** The two tables have the same keys *)

Lemma relax_keys current st next st' :
  relax graph current st next = Ret st' →
  dom (came_from st) = dom (cost_so_far st) →
  dom (came_from st') = dom (cost_so_far st').
Proof.
  intros (cc & _ & [[-> _]|[-> _]])%relax_cases; [done|].
  simpl. rewrite !dom_insert_L. by intros ->.
Qed.

Lemma for_neighbors_keys current next_list st st' :
  for_neighbors graph current next_list st = Ret st' →
  dom (came_from st) = dom (cost_so_far st) →
  dom (came_from st') = dom (cost_so_far st').
Proof.
  revert st. induction next_list as [|next rest IH]; simpl; intros st.
  - by intros [= <-].
  - destruct (relax graph current st next) as [st1| |] eqn:Hrelax; [|done..].
    simpl. eauto using relax_keys.
Qed.

Lemma dijkstra_loop_keys goal fuel st dq st' dq' :
  dijkstra_loop graph goal fuel st dq = Ret (st', dq') →
  dom (came_from st) = dom (cost_so_far st) →
  dom (came_from st') = dom (cost_so_far st').
Proof.
  revert st dq. induction fuel as [|fuel IH]; intros st dq; simpl;
    destruct (PriorityQueue.empty (frontier st)); try done.
  - by intros [= <- <-].
  - by intros [= <- <-].
  - destruct (PriorityQueue.get (frontier st)) as [[current rest]| |];
      [|done..]. simpl.
    case_decide; [by intros [= <- <-]|].
    destruct (neighbors graph current) as [next_list| |]; [|done..]. simpl.
    destruct (for_neighbors graph current next_list _) as [st1| |] eqn:Hfor;
      [|done..]. simpl.
    intros Hloop Hkeys. eapply IH; [done|].
    by eapply for_neighbors_keys.
Qed.

(** C10. The two tables returned by [dijkstra_search(graph, start, goal)]
    have the same keys: a location has an entry in [came_from] if and only
    if it has one in [cost_so_far]. *)
Theorem dijkstra_search_same_keys fuel start goal came_from cost_so_far :
  dijkstra_search graph fuel start goal = Ret (came_from, cost_so_far) →
  ∀ L, is_Some (came_from !! L) ↔ is_Some (cost_so_far !! L).
Proof.
  unfold dijkstra_search, dijkstra_run.
  destruct (dijkstra_loop graph goal fuel (dijkstra_init start) [])
    as [[st' dq']| |] eqn:Hloop; [|done..].
  simpl. intros [= <- <-] L.
  apply dijkstra_loop_keys in Hloop.
  - by rewrite <-!elem_of_dom, Hloop.
  - simpl. by rewrite !dom_insert_L, !dom_empty_L.
Qed.

(** *** The recorded costs only decrease *)

Lemma relax_cost_decreases current st next st' L x :
  relax graph current st next = Ret st' →
  cost_so_far st !! L = Some x →
  ∃ y, cost_so_far st' !! L = Some y ∧ (y = x ∨ y < x).
Proof.
  intros (cc & Hcc & [[-> _]|[-> Hlt]])%relax_cases HL; [by eauto|].
  unfold improved. rewrite Hcc. simpl. destruct (decide (L = next)) as [->|].
  - rewrite lookup_insert_eq. eauto.
  - rewrite lookup_insert_ne by done. eauto.
Qed.

Lemma step_cost_decreases goal p p' L x :
  step graph goal p p' →
  cost_so_far (vars p) !! L = Some x →
  ∃ y, cost_so_far (vars p') !! L = Some y ∧ (y = x ∨ y < x).
Proof.
  destruct 1 as [st dq Hempty|st rest dq Hget|st current rest nl dq Hget Hne Hn
                |st st' current next rest dq Hrelax|st current dq];
    simpl; eauto using relax_cost_decreases.
Qed.

(** Over any number of steps the recorded cost does not increase. *)
Lemma cost_so_far_non_increasing goal p p' L x :
  rtc (step graph goal) p p' →
  cost_so_far (vars p) !! L = Some x →
  ∃ y, cost_so_far (vars p') !! L = Some y ∧ y ≤ x.
Proof.
  intros Hsteps. revert x.
  induction Hsteps as [p|p p1 p' Hstep _ IH]; intros x Hx.
  - exists x. split; [done|lia].
  - destruct (step_cost_decreases goal p p1 L x Hstep Hx)
      as (y & Hy & Hle).
    destruct (IH y Hy) as (z & Hz & Hle'). exists z. split; [done|lia].
Qed.

(** *** The invariant of the search *)

Section invariant.
Variable start : Location.
Hypothesis Hnonneg : nonneg_costs graph.

Lemma walk_nonneg v c : walk graph start v c → 0 ≤ c.
Proof.
  induction 1 as [|u v c _ IH Hedge]; [done|].
  specialize (Hnonneg u v Hedge). lia.
Qed.

Lemma dijkstra_init_inv : dijkstra_inv graph start ∅ None (dijkstra_init start).
Proof.
  split; simpl.
  - by rewrite !dom_insert_L, !dom_empty_L.
  - apply lookup_insert_eq.
  - apply lookup_insert_eq.
  - intros v cv [[-> <-]|[_ ?]]%lookup_insert_Some; [constructor|done].
  - set_solver.
  - set_solver.
  - intros v cv [[-> <-]|[_ ?]]%lookup_insert_Some; [|done].
    unfold PriorityQueue.put, heapq.heappush. by left.
  - unfold PriorityQueue.put, heapq.heappush, PriorityQueue.new.
    intros p v [= -> ->]%list_elem_of_singleton.
    exists 0. by rewrite lookup_insert_eq.
  - intros v u [[_ ?]|[_ ?]]%lookup_insert_Some; done.
  - by intros v [[-> _]|[_ ?]]%lookup_insert_Some.
  - intros k [b [[<- _]|[_ ?]]%lookup_insert_Some]; [by exists O|done].
  - done.
Qed.

(** Every path from [start] ends in a closed location or goes through
    an open location that costs no more than the path. *)
Lemma walk_meets_open closed st v c' :
  dijkstra_inv graph start closed None st →
  walk graph start v c' →
  v ∈ closed ∨
  ∃ y cy, (y ∉ closed) ∧ cost_so_far st !! y = Some cy ∧ cy ≤ c'.
Proof.
  intros Hinv. induction 1 as [|u v c Hwalk IH Hedge].
  - destruct (decide (start ∈ closed)); [by left|right].
    exists start, 0. by rewrite (inv_start_cost _ _ _ _ _ Hinv).
  - specialize (Hnonneg u v Hedge).
    destruct IH as [Hu|(y & cy & Hy & Hcy & Hle)].
    + destruct (inv_closed _ _ _ _ _ Hinv u Hu) as (cu & Hcu & Hmin).
      specialize (Hmin c Hwalk).
      destruct (inv_relaxed _ _ _ _ _ Hinv u v Hu Hedge)
        as [(cu' & cv & Hcu' & Hcv & Hle)|[]].
      simplify_eq. destruct (decide (v ∈ closed)); [by left|right].
      exists v, cv. split_and!; [done..|lia].
    + right. exists y, cy. split_and!; [done..|lia].
Qed.

(** The location that [frontier.get()] returns has its final cost. *)
Lemma get_optimal closed st current (prio : Z) :
  dijkstra_inv graph start closed None st →
  (prio, current) ∈ frontier st →
  (∀ e, e ∈ frontier st → prio ≤ e.1) →
  ∃ cv, cost_so_far st !! current = Some cv ∧
        ∀ c', walk graph start current c' → cv ≤ c'.
Proof.
  intros Hinv Hin Hmin.
  destruct (inv_frontier _ _ _ _ _ Hinv prio current Hin)
    as (cv & Hcv & Hle).
  exists cv. split; [done|]. intros c' Hwalk.
  destruct (walk_meets_open closed st current c' Hinv Hwalk)
    as [Hcl|(y & cy & Hy & Hcy & Hle')].
  - destruct (inv_closed _ _ _ _ _ Hinv current Hcl) as (cv' & Hcv' & Hopt).
    simplify_eq. by apply Hopt.
  - pose proof (inv_open _ _ _ _ _ Hinv y cy Hcy Hy) as Hiny.
    specialize (Hmin _ Hiny). simpl in Hmin. lia.
Qed.

(** Taking [current] out of the frontier closes it; all its edges are
    pending. *)
Lemma dijkstra_get_inv closed st current rest next_list :
  dijkstra_inv graph start closed None st →
  PriorityQueue.get (frontier st) = Ret (current, rest) →
  neighbors graph current = Ret next_list →
  dijkstra_inv graph start (closed ∪ {[current]})
    (Some (current, next_list)) (without_frontier st rest).
Proof.
  intros Hinv Hget Hn.
  destruct (get_spec _ _ _ Hget) as (prio & Hin & Hsub & Hcases & Hmin & _).
  destruct (get_optimal closed st current prio Hinv Hin Hmin)
    as (cc & Hcc & Hopt).
  destruct Hinv as [Hkeys Hsc Hsf Hwalk Hclosed Hrelaxed Hopen Hfr Hfrom
                    Hroot Htree _].
  split; simpl; try done.
  - intros v [Hv| ->%elem_of_singleton]%elem_of_union; eauto.
  - intros v w [Hv| ->%elem_of_singleton]%elem_of_union Hedge.
    + destruct (Hrelaxed v w Hv Hedge) as [?|[]]. by left.
    + right. split; [done|]. by apply (neighbors_edge graph current).
  - intros v cv Hcv Hv.
    destruct (Hcases _ (Hopen v cv Hcv ltac:(set_solver))) as [[= _ ->]|?];
      [set_solver|done].
  - intros q v Hq. apply Hfr. by apply Hsub.
  - intros v u Hvu. destruct (Hfrom v u Hvu) as (Hu & ?). split; [|done].
    set_solver.
  - intros ?? [= <- <-]. split; [set_solver|].
    intros w. by apply neighbors_edge.
Qed.

Lemma dijkstra_end_for_inv closed st current :
  dijkstra_inv graph start closed (Some (current, [])) st →
  dijkstra_inv graph start closed None st.
Proof.
  intros [Hkeys Hsc Hsf Hwalk Hclosed Hrelaxed Hopen Hfr Hfrom
          Hroot Htree _].
  split; try done.
  intros v w Hv Hedge. destruct (Hrelaxed v w Hv Hedge) as [?|[_ Hin]];
    [by left|]. by apply elem_of_nil in Hin.
Qed.
(** One turn of the [for] loop does not raise and keeps the invariant. *)
Lemma relax_inv closed st current next rest :
  dijkstra_inv graph start closed (Some (current, next :: rest)) st →
  ∃ st', relax graph current st next = Ret st' ∧
         dijkstra_inv graph start closed (Some (current, rest)) st'.
Proof.
  intros [Hkeys Hsc Hsf Hwalk Hclosed Hrelaxed Hopen Hfr Hfrom
          Hroot Htree Hcur].
  destruct (Hcur _ _ eq_refl) as [Hcc Hrest].
  assert (edge graph current next) as Hedge by (apply Hrest; left).
  destruct (Hclosed _ Hcc) as (cc & Ecc & Hopt).
  destruct (relax_returns current st next cc Ecc) as [st' Hrelax].
  exists st'. split; [done|].
  apply relax_cases in Hrelax
    as (cc' & Ecc' & [[-> (cn & Ecn & Hle)]|[-> Hlt]]); simplify_eq.
  { (* the tables are not written *)
    split; try done.
    - intros v w Hv Hvw.
      destruct (Hrelaxed v w Hv Hvw) as [?|[-> Hin]]; [by left|].
      apply elem_of_cons in Hin as [->|?]; [left|by right].
      by exists cc, cn.
    - intros ?? [= <- <-]. split; [done|]. intros w ?. apply Hrest.
      by right. }
  (* the tables are written *)
  set (new_cost := cc + cost graph current next).
  assert (walk graph start next new_cost) as Hwnext.
  { apply walk_edge; [by apply Hwalk|done]. }
  assert (next ∉ closed) as Hnext.
  { intros Hcl. destruct (Hclosed _ Hcl) as (cn & Ecn & Hoptn).
    specialize (Hoptn _ Hwnext). specialize (Hlt _ Ecn).
    unfold new_cost in *. lia. }
  assert (next ≠ start) as Hstart.
  { intros ->. specialize (Hlt _ Hsc).
    pose proof (walk_nonneg _ _ Hwnext). unfold new_cost in *. lia. }
  assert (next ≠ current) as Hne by set_solver.
  unfold improved. rewrite Ecc. simpl. fold new_cost.
  split; simpl.
  - rewrite !dom_insert_L. by rewrite Hkeys.
  - by rewrite lookup_insert_ne.
  - by rewrite lookup_insert_ne.
  - intros v cv [[<- <-]|[_ ?]]%lookup_insert_Some; [done|by apply Hwalk].
  - intros v Hv. rewrite lookup_insert_ne by set_solver. by apply Hclosed.
  - intros v w Hv Hvw. unfold relaxed. simpl.
    rewrite (lookup_insert_ne _ next v) by set_solver.
    destruct (Hrelaxed v w Hv Hvw)
      as [(cv & cw & Ecv & Ecw & Hle)|[-> Hin]].
    + left. destruct (decide (w = next)) as [->|].
      * exists cv, new_cost. rewrite lookup_insert_eq.
        specialize (Hlt _ Ecw). split_and!; [done..|].
        unfold new_cost. lia.
      * exists cv, cw. by rewrite lookup_insert_ne.
    + apply elem_of_cons in Hin as [->|?]; [left|by right].
      exists cc, new_cost. rewrite lookup_insert_eq.
      split_and!; [done..|]. unfold new_cost. lia.
  - unfold PriorityQueue.put, heapq.heappush.
    intros v cv [[<- <-]|[? Ecv]]%lookup_insert_Some Hv; [by left|].
    right. by apply Hopen.
  - unfold PriorityQueue.put, heapq.heappush.
    intros q v [[= -> ->]|Hin]%elem_of_cons.
    + exists new_cost. by rewrite lookup_insert_eq.
    + destruct (Hfr q v Hin) as (cv & Ecv & Hle).
      destruct (decide (v = next)) as [->|].
      * exists new_cost. rewrite lookup_insert_eq.
        specialize (Hlt _ Ecv). split; [done|]. unfold new_cost. lia.
      * exists cv. by rewrite lookup_insert_ne.
  - intros v u [[<- [= <-]]|[? Evu]]%lookup_insert_Some.
    + split_and!; [done..|]. exists cc.
      by rewrite lookup_insert_ne, lookup_insert_eq.
    + destruct (Hfrom v u Evu) as (Hu & Huv & Hv & cu & Ecu & Ecv).
      split_and!; [done..|]. exists cu.
      rewrite !lookup_insert_ne by set_solver. done.
  - intros v [[_ ?]|[_ ?]]%lookup_insert_Some; [done|by apply Hroot].
  - assert (∃ m, ancestor (<[next := Some current]> (came_from st)) m current
                 = Some start) as [m Hm].
    { destruct (Htree current) as [m Hm].
      { apply (elem_of_dom (D := gset Location)). rewrite Hkeys.
        by apply (elem_of_dom_2 (D := gset Location)) in Ecc. }
      exists m. eapply ancestor_insert_closed; [|done..].
      intros v u Evu. by destruct (Hfrom v u Evu). }
    intros k [b [[<- _]|[? Ek]]%lookup_insert_Some].
    + exists (S m). simpl. by rewrite lookup_insert_eq.
    + destruct (Htree k) as [n Hn]; [by rewrite Ek|].
      by eapply ancestor_insert_reach.
  - intros ?? [= <- <-]. split; [done|]. intros w ?. apply Hrest. by right.
Qed.

Lemma for_neighbors_inv closed st current next_list :
  dijkstra_inv graph start closed (Some (current, next_list)) st →
  ∃ st', for_neighbors graph current next_list st = Ret st' ∧
         dijkstra_inv graph start closed (Some (current, [])) st'.
Proof.
  revert st. induction next_list as [|next rest IH]; intros st Hinv; simpl.
  - by exists st.
  - destruct (relax_inv closed st current next rest Hinv)
      as (st1 & -> & Hinv1). simpl. by apply IH.
Qed.
(** One iteration of the [while] loop that does not dequeue the goal. *)
Lemma iteration_inv closed st current rest next_list :
  dijkstra_inv graph start closed None st →
  PriorityQueue.get (frontier st) = Ret (current, rest) →
  neighbors graph current = Ret next_list →
  ∃ st', for_neighbors graph current next_list (without_frontier st rest)
           = Ret st' ∧
         dijkstra_inv graph start (closed ∪ {[current]}) None st'.
Proof.
  intros Hinv Hget Hn.
  destruct (for_neighbors_inv (closed ∪ {[current]})
              (without_frontier st rest) current next_list)
    as (st' & Hfor & Hinv'); [by apply dijkstra_get_inv|].
  exists st'. split; [done|]. by eapply dijkstra_end_for_inv.
Qed.

Lemma without_frontier_id st : without_frontier st (frontier st) = st.
Proof. by destruct st. Qed.

Lemma list_to_set_snoc (dq : list Location) current :
  list_to_set (dq ++ [current]) =@{gset Location}
    list_to_set dq ∪ {[current]}.
Proof. rewrite list_to_set_app_L. simpl. by rewrite (right_id_L ∅ (∪)). Qed.

(** What holds when the loop ends. *)
Lemma dijkstra_loop_post goal fuel st dq st' dq' :
  dijkstra_inv graph start (list_to_set dq) None st →
  goal ∉ dq →
  dijkstra_loop graph goal fuel st dq = Ret (st', dq') →
  dijkstra_post graph start goal st' dq'.
Proof.
  revert st dq. induction fuel as [|fuel IH]; intros st dq Hinv Hgoal; simpl;
    destruct (PriorityQueue.empty (frontier st)) eqn:Hempty; try done.
  1,2: intros [= <- <-]; exists dq, []; destruct st as [[|??] ??];
       try done; by split_and!; [|done|left].
  destruct (PriorityQueue.get (frontier st)) as [[current rest]| |] eqn:Hget;
    [|done..]. simpl.
  case_decide as Hcur.
  - intros [= <- <-]. subst current. exists dq, (frontier st).
    split_and!; [by destruct st|done|by right].
  - destruct (neighbors graph current) as [next_list| |] eqn:Hn; [|done..].
    simpl.
    destruct (iteration_inv _ _ _ _ _ Hinv Hget Hn) as (st1 & Hfor & Hinv1).
    unfold without_frontier in Hfor. rewrite Hfor. simpl.
    apply IH.
    + by rewrite list_to_set_snoc.
    + rewrite elem_of_app, list_elem_of_singleton. naive_solver.
Qed.
(** *** Termination *)

Lemma relax_noop st current next :
  relaxed graph st current next → relax graph current st next = Ret st.
Proof.
  intros (cc & cn & Ecc & Ecn & Hle). unfold relax, getitem.
  rewrite Ecc. simpl. rewrite Ecn. by rewrite bool_decide_eq_false_2 by lia.
Qed.

Lemma for_neighbors_noop st current next_list :
  (∀ w, w ∈ next_list → relaxed graph st current w) →
  for_neighbors graph current next_list st = Ret st.
Proof.
  induction next_list as [|next rest IH]; simpl; intros Hrel; [done|].
  rewrite relax_noop by (apply Hrel; by left). simpl.
  apply IH. intros w ?. apply Hrel. by right.
Qed.

Lemma relax_dom nodes current st next st' :
  relax graph current st next = Ret st' →
  next ∈ nodes → dom (cost_so_far st) ⊆ nodes →
  dom (cost_so_far st') ⊆ nodes.
Proof.
  intros (cc & _ & [[-> _]|[-> _]])%relax_cases; [done|].
  simpl. rewrite dom_insert_L. set_solver.
Qed.

Lemma for_neighbors_dom nodes current next_list st st' :
  for_neighbors graph current next_list st = Ret st' →
  (∀ w, w ∈ next_list → w ∈ nodes) → dom (cost_so_far st) ⊆ nodes →
  dom (cost_so_far st') ⊆ nodes.
Proof.
  revert st. induction next_list as [|next rest IH]; simpl; intros st.
  - by intros [= <-].
  - destruct (relax graph current st next) as [st1| |] eqn:Hrelax;
      [|done..]. simpl.
    intros Hfor Hin Hdom. eapply IH; [done|intros; apply Hin; by right|].
    eapply relax_dom; [done|apply Hin; by left|done].
Qed.

Lemma closed_dom closed c st v :
  dijkstra_inv graph start closed c st → v ∈ closed →
  v ∈ dom (cost_so_far st).
Proof.
  intros Hinv Hv. destruct (inv_closed _ _ _ _ _ Hinv v Hv) as (cv & Ecv & _).
  by apply (elem_of_dom_2 (D := gset Location)) in Ecv.
Qed.

(** An iteration in a well formed graph: it does not raise, and either
    closes a new location or only shortens the frontier. *)
Lemma iteration_progress nodes closed st current rest :
  well_formed graph nodes →
  dijkstra_inv graph start closed None st →
  dom (cost_so_far st) ⊆ nodes →
  PriorityQueue.get (frontier st) = Ret (current, rest) →
  ∃ next_list st',
    neighbors graph current = Ret next_list ∧
    for_neighbors graph current next_list (without_frontier st rest)
      = Ret st' ∧
    dijkstra_inv graph start (closed ∪ {[current]}) None st' ∧
    dom (cost_so_far st') ⊆ nodes ∧
    ((size (nodes ∖ (closed ∪ {[current]})) < size (nodes ∖ closed))%nat ∨
     (closed ∪ {[current]} = closed ∧
      length (frontier st) = S (length (frontier st')))).
Proof.
  intros Hwf Hinv Hdom Hget.
  destruct (get_spec _ _ _ Hget) as (prio & Hin & _ & _ & _ & Hlen).
  destruct (inv_frontier _ _ _ _ _ Hinv prio current Hin) as (cc & Ecc & _).
  assert (current ∈ nodes) as Hcur.
  { apply Hdom. by apply (elem_of_dom_2 (D := gset Location)) in Ecc. }
  destruct (Hwf current Hcur) as (next_list & Hn & Hnodes).
  destruct (iteration_inv _ _ _ _ _ Hinv Hget Hn) as (st' & Hfor & Hinv').
  exists next_list, st'. split_and!; [done..| |].
  { eapply for_neighbors_dom; [done..|]. done. }
  destruct (decide (current ∈ closed)) as [Hcl|Hcl].
  - right. split; [set_solver|].
    rewrite for_neighbors_noop in Hfor; [by injection Hfor as <-|].
    intros w Hw.
    destruct (inv_relaxed _ _ _ _ _ Hinv current w Hcl) as [Hr|[]].
    { by apply (neighbors_edge graph current next_list). }
    destruct Hr as (c1 & c2 & ? & ? & ?). by exists c1, c2.
  - left. apply subset_size. set_solver.
Qed.

Lemma dijkstra_loop_terminates nodes goal :
  well_formed graph nodes →
  ∀ n m st dq,
    dijkstra_inv graph start (list_to_set dq) None st →
    dom (cost_so_far st) ⊆ nodes →
    size (nodes ∖ list_to_set dq) = n →
    length (frontier st) = m →
    ∃ fuel r, dijkstra_loop graph goal fuel st dq = Ret r.
Proof.
  intros Hwf n. induction n as [n IHn] using lt_wf_ind.
  intros m. induction m as [m IHm] using lt_wf_ind.
  intros st dq Hinv Hdom Hn Hm.
  destruct (PriorityQueue.empty (frontier st)) eqn:Hempty.
  { exists O. simpl. rewrite Hempty. eauto. }
  destruct (get_empty _ Hempty) as (current & rest & Hget).
  destruct (decide (current = goal)) as [Hgoal|Hgoal].
  { exists 1%nat. simpl. rewrite Hempty, Hget. simpl.
    rewrite decide_True by done. eauto. }
  destruct (iteration_progress nodes _ st current rest Hwf Hinv Hdom Hget)
    as (next_list & st' & Hnl & Hfor & Hinv' & Hdom' & Hcase).
  rewrite <-list_to_set_snoc in Hinv', Hcase.
  assert (∃ fuel r, dijkstra_loop graph goal fuel st' (dq ++ [current])
                    = Ret r) as (fuel & r & Hloop).
  { destruct Hcase as [Hlt|[Heq Hlen]].
    - eapply (IHn _ ltac:(subst n; exact Hlt)); eauto.
    - eapply (IHm (length (frontier st')) ltac:(lia)); eauto.
      by rewrite Heq. }
  exists (S fuel), r. simpl. rewrite Hempty, Hget. simpl.
  rewrite decide_False by done. rewrite Hnl. simpl.
  unfold without_frontier in Hfor. by rewrite Hfor.
Qed.
(** *** What the invariant gives at the end *)







(** *** Every point of a run *)

Lemma step_point_inv goal p p' :
  step graph goal p p' →
  point_inv graph start p → point_inv graph start p'.
Proof.
  unfold point_inv.
  destruct 1 as [st dq Hempty|st rest dq Hget|st current rest nl dq Hget Hne Hn
                |st st' current next rest dq Hrelax|st current dq];
    simpl; intros Hinv.
  - exists (list_to_set dq), (frontier st). by destruct st.
  - exists (list_to_set dq), (frontier st). by destruct st.
  - rewrite list_to_set_snoc. by apply dijkstra_get_inv.
  - destruct (relax_inv _ _ _ _ _ Hinv) as (st1 & Hrelax1 & Hinv1).
    congruence.
  - by eapply dijkstra_end_for_inv.
Qed.

Lemma during_point_inv goal p :
  during graph start goal p → point_inv graph start p.
Proof.
  unfold during. revert p. apply rtc_ind_r.
  - apply dijkstra_init_inv.
  - eauto using step_point_inv.
Qed.

Lemma inv_tree_rooted closed c st :
  dijkstra_inv graph start closed c st →
  tree_rooted_at start (came_from st).
Proof.
  intros Hinv k Hk.
  destruct (inv_tree _ _ _ _ _ Hinv k Hk) as [m Hm].
  split; [by exists m|].
  eapply ancestor_no_cycle; [|done]. apply (inv_start_from _ _ _ _ _ Hinv).
Qed.

Lemma point_inv_tree p :
  point_inv graph start p → tree_rooted_at start (came_from (vars p)).
Proof.
  unfold point_inv. destruct (ctl p).
  - apply inv_tree_rooted.
  - apply inv_tree_rooted.
  - intros (closed & fr & Hinv). by apply inv_tree_rooted in Hinv.
Qed.

(** *** The run ends *)

Lemma dijkstra_run_terminates nodes goal :
  well_formed graph nodes → start ∈ nodes →
  ∃ fuel st' dq',
    dijkstra_run graph fuel start goal = Ret (st', dq') ∧
    dijkstra_post graph start goal st' dq'.
Proof.
  intros Hwf Hstart.
  destruct (dijkstra_loop_terminates nodes goal Hwf
              (size (nodes ∖ list_to_set []))
              (length (frontier (dijkstra_init start)))
              (dijkstra_init start) [])
    as (fuel & [st' dq'] & Hloop);
    [apply dijkstra_init_inv| |reflexivity|reflexivity|].
  { simpl. rewrite dom_insert_L, dom_empty_L. set_solver. }
  exists fuel, st', dq'. split; [done|].
  eapply (dijkstra_loop_post goal fuel _ []);
    [apply dijkstra_init_inv| |done].
  apply not_elem_of_nil.
Qed.

Lemma dijkstra_run_post goal fuel st' dq' :
  dijkstra_run graph fuel start goal = Ret (st', dq') →
  dijkstra_post graph start goal st' dq'.
Proof.
  intros Hrun.
  eapply (dijkstra_loop_post goal fuel _ []);
    [apply dijkstra_init_inv| |done].
  apply not_elem_of_nil.
Qed.

Lemma dijkstra_search_run goal fuel st' dq' :
  dijkstra_run graph fuel start goal = Ret (st', dq') →
  dijkstra_search graph fuel start goal
    = Ret (came_from st', cost_so_far st').
Proof. intros Hrun. unfold dijkstra_search. by rewrite Hrun. Qed.

End invariant.

(** *** The claims *)


(** The result of [dijkstra_search] is made of the tables of a run. *)
Lemma dijkstra_search_inv fuel start goal came_from' cost_so_far' :
  dijkstra_search graph fuel start goal = Ret (came_from', cost_so_far') →
  ∃ st' dq',
    dijkstra_run graph fuel start goal = Ret (st', dq') ∧
    came_from' = came_from st' ∧ cost_so_far' = cost_so_far st'.
Proof.
  unfold dijkstra_search.
  destruct (dijkstra_run graph fuel start goal) as [[st' dq']| |]; [|done..].
  simpl. intros [= <- <-]. by exists st', dq'.
Qed.

Lemma dijkstra_search_terminates nodes start goal :
  well_formed graph nodes → start ∈ nodes → nonneg_costs graph →
  ∃ fuel came_from cost_so_far,
    dijkstra_search graph fuel start goal = Ret (came_from, cost_so_far).
Proof.
  intros Hwf Hstart Hnonneg.
  destruct (dijkstra_run_terminates start Hnonneg nodes goal Hwf Hstart)
    as (fuel & st' & dq' & Hrun & _).
  exists fuel, (came_from st'), (cost_so_far st').
  by eapply dijkstra_search_run.
Qed.


(** C4. In a graph with non-negative edge costs, at every point of a run
    of [dijkstra_search], the backpointers of [came_from] are a tree
    rooted at [start]: from every key the chain of backpointers reaches
    [start], and it goes through no cycle. *)
Theorem came_from_tree start goal p :
  nonneg_costs graph →
  during graph start goal p →
  tree_rooted_at start (came_from (vars p)).
Proof.
  intros Hnonneg Hp. apply (point_inv_tree start).
  by apply (during_point_inv start Hnonneg goal).
Qed.

(** *** An unreachable goal, whatever the costs *)





End dijkstra_proofs.

(** ** The graphs of the examples *)

Section example_graphs.
Import Dijkstra.
Local Open Scope Z_scope.




(** The neighbours of a location of a grid are locations of the grid. *)
Lemma grid_neighbors_locations (self : SquareGrid) (id w : GridLocation) :
  w ∈ grid_neighbors self id → w ∈ grid_locations self.
Proof.
  unfold grid_neighbors, grid_locations. destruct id as [x y].
  intros Hw.
  assert (passable self w ∧ in_bounds self w) as [Hpass Hin].
  { case_bool_decide;
      apply list_elem_of_filter in Hw as [? Hw];
      by apply list_elem_of_filter in Hw as [? _]. }
  apply list_elem_of_filter. split; [done|].
  destruct w as [wx wy]. unfold in_bounds in Hin.
  apply andb_True in Hin as [Hx%bool_decide_spec Hy%bool_decide_spec].
  apply list_elem_of_bind. exists wx. split; [|apply elem_of_seqZ; lia].
  apply list_elem_of_bind. exists wy. split; [|apply elem_of_seqZ; lia].
  by left.
Qed.

Lemma grid_well_formed (self : SquareGrid) :
  well_formed self (list_to_set (grid_locations self)).
Proof.
  intros v _. exists (grid_neighbors self v). split; [done|].
  intros w Hw. by apply elem_of_list_to_set, (grid_neighbors_locations self v).
Qed.


(** With non-negative weights, the costs of a grid are non-negative. *)
Lemma weighted_grid_nonneg (self : GridWithWeights) :
  map_Forall (λ _ weight, 0 ≤ weight) (weights self) → nonneg_costs self.
Proof.
  intros Hweights u v _. simpl. unfold grid_cost.
  destruct (weights self !! v) as [weight|] eqn:Ev; simpl; [|lia].
  by apply (Hweights v).
Qed.


Lemma detour_nonneg : nonneg_costs detour.
Proof. intros u v _. simpl. case_bool_decide; lia. Qed.


End example_graphs.

(** ** The executable search goes through the points of the run *)

Section dijkstra_steps.
Import Dijkstra.
Context `{Countable Location, Less Location}.
Context {G : Type} `{!WeightedGraph Location G} (graph : G).
Implicit Types (st : state Location) (dq : list Location).

Lemma for_neighbors_steps goal current next_list st st' dq :
  for_neighbors graph current next_list st = Ret st' →
  rtc (step graph goal) (Point st (InFor current next_list) dq)
                        (Point st' (InFor current []) dq).
Proof.
  revert st. induction next_list as [|next rest IH]; simpl; intros st.
  - intros [= <-]. apply rtc_refl.
  - destruct (relax graph current st next) as [st1| |] eqn:Hrelax; [|done..].
    simpl. intros Hfor. eapply rtc_l; [by apply step_relax|]. by apply IH.
Qed.

Lemma dijkstra_loop_steps goal fuel st dq st' dq' :
  dijkstra_loop graph goal fuel st dq = Ret (st', dq') →
  rtc (step graph goal) (Point st AtWhile dq) (Point st' Returned dq').
Proof.
  revert st dq. induction fuel as [|fuel IH]; intros st dq; simpl;
    destruct (PriorityQueue.empty (frontier st)) eqn:Hempty; try done.
  1,2: intros [= <- <-]; by apply rtc_once, step_exit.
  destruct (PriorityQueue.get (frontier st)) as [[current rest]| |] eqn:Hget;
    [|done..]. simpl.
  case_decide as Hcur.
  - intros [= <- <-]. subst current. by apply rtc_once, step_break.
  - destruct (neighbors graph current) as [next_list| |] eqn:Hn; [|done..].
    simpl.
    destruct (for_neighbors graph current next_list _) as [st1| |] eqn:Hfor;
      [|done..]. simpl.
    intros Hloop. eapply rtc_l; [by eapply step_get|].
    etrans; [by eapply for_neighbors_steps|].
    eapply rtc_l; [apply step_end_for|]. by apply IH.
Qed.

Lemma dijkstra_run_during start goal fuel st' dq' :
  dijkstra_run graph fuel start goal = Ret (st', dq') →
  during graph start goal (Point st' Returned dq').
Proof. apply dijkstra_loop_steps. Qed.
End dijkstra_steps.

(** ** Examples *)

Section examples.
Import Dijkstra.
Local Open Scope Z_scope.
Local Open Scope string_scope.

(** The breadth first searches of [1-bfs-graph.py]. *)
Example bfs_from_A :
  ∃ st', BFS.breadth_first_search BFS.example_graph 6 "A" = Ret st' ∧
         BFS.visited st' = ["A"; "B"; "C"; "D"; "F"; "E"] ∧
         dom (BFS.reached st') = list_to_set example_nodes.
Proof. eexists. split; [vm_compute; reflexivity|]. split; compute_done. Qed.

Example bfs_from_E :
  ∃ st', BFS.breadth_first_search BFS.example_graph 6 "E" = Ret st' ∧
         BFS.visited st' = ["E"; "F"] ∧
         dom (BFS.reached st') = {["E"; "F"]}.
Proof. eexists. split; [vm_compute; reflexivity|]. split; compute_done. Qed.

(** The search of [3-dijkstra.py]: on [diagram4], from (1, 4) to (8, 3). *)
Example diagram4_search :
  ∃ came_from cost_so_far,
    dijkstra_search diagram4 100 (1, 4) (8, 3)
      = Ret (came_from, cost_so_far) ∧
    cost_so_far !! (8, 3) = Some 14 ∧
    reconstruct_path 100 came_from (1, 4) (8, 3)
      = Ret [(1, 4); (1, 3); (1, 2); (1, 1); (1, 0); (2, 0); (3, 0); (4, 0);
             (5, 0); (6, 0); (6, 1); (7, 1); (7, 2); (8, 2); (8, 3)].
Proof.
  eexists _, _. split; [vm_compute; reflexivity|]. split; compute_done.
Qed.

(** The search of the detour graph writes the entry of 1 twice. *)
Example detour_search :
  ∃ came_from cost_so_far,
    dijkstra_search detour 5 0 3 = Ret (came_from, cost_so_far) ∧
    cost_so_far !! 1 = Some 2 ∧ came_from !! 1 = Some (Some 2) ∧
    reconstruct_path 5 came_from 0 1 = Ret [0; 2; 1].
Proof.
  eexists _, _. split; [vm_compute; reflexivity|]. split_and!; compute_done.
Qed.

(** On two backpointers that point to each other the walk of
    [reconstruct_path] does not end: no cycle is detected. *)
Lemma walk_back_cyclic fuel current path :
  current = "A" ∨ current = "B" →
  walk_back fuel cyclic_table "S" (Some current) path = OutOfFuel.
Proof.
  revert current path. induction fuel as [|fuel IH]; intros current path Hcur.
  - by destruct Hcur as [-> | ->].
  - destruct Hcur as [-> | ->]; simpl.
    + change (getitem cyclic_table "A") with (Ret (Some "B")).
      simpl. apply IH. by right.
    + change (getitem cyclic_table "B") with (Ret (Some "A")).
      simpl. apply IH. by left.
Qed.

Example reconstruct_path_cyclic fuel :
  reconstruct_path fuel cyclic_table "S" "A" = OutOfFuel.
Proof.
  unfold reconstruct_path.
  change (cyclic_table !! "A") with (Some (Some "B")).
  rewrite walk_back_cyclic; [done|by left].
Qed.
End examples.


(** ** Square grids *)

Section grid_proofs.
Import Dijkstra.
Local Open Scope Z_scope.
Implicit Types (self : SquareGrid) (id w : GridLocation).

Lemma adjacent_candidates x y w :
  w ∈ [(x + 1, y); (x - 1, y); (x, y - 1); (x, y + 1)] ↔ adjacent (x, y) w.
Proof.
  destruct w as [wx wy]. unfold adjacent. simpl.
  rewrite !elem_of_cons, elem_of_nil. split.
  - intros [[= -> ->]|[[= -> ->]|[[= -> ->]|[[= -> ->]|[]]]]]; lia.
  - intros Hadj.
    assert ((wx = x + 1 ∧ wy = y) ∨ (wx = x - 1 ∧ wy = y) ∨
            (wx = x ∧ wy = y - 1) ∨ (wx = x ∧ wy = y + 1))
      as [[-> ->]|[[-> ->]|[[-> ->]|[-> ->]]]] by lia; auto.
Qed.

Lemma grid_neighbors_elem self id w :
  w ∈ grid_neighbors self id ↔
  adjacent id w ∧ in_bounds self w = true ∧ w ∉ walls self.
Proof.
  unfold grid_neighbors. destruct id as [x y].
  assert (∀ l : list GridLocation,
    w ∈ filter (λ id, passable self id) (filter (λ id, in_bounds self id) l)
    ↔ w ∈ l ∧ in_bounds self w = true ∧ w ∉ walls self) as Hfilter.
  { intros l. rewrite !list_elem_of_filter. unfold passable.
    rewrite bool_decide_spec, Is_true_true. tauto. }
  case_bool_decide; rewrite Hfilter, ?elem_of_reverse, adjacent_candidates;
    done.
Qed.

Lemma adjacent_sym id w : adjacent id w → adjacent w id.
Proof. unfold adjacent. lia. Qed.

(** X1. The neighbours of a location of a square grid are exactly the
    locations one step east, west, north or south of it that are in bounds
    and are no walls. The location itself need not be in bounds, nor off
    the walls. *)
Theorem grid_neighbors_exact self id w :
  w ∈ grid_neighbors self id ↔
  adjacent id w ∧ in_bounds self w = true ∧ w ∉ walls self.
Proof. apply grid_neighbors_elem. Qed.

(** X2. On a square grid, a neighbour [w] of [id] has [id] among its own
    neighbours exactly when [id] is in bounds and is no wall: the edges
    between the locations of the grid go both ways, and an edge that leaves
    a wall or a location out of bounds has no return. *)
Theorem grid_neighbors_symmetric self id w :
  w ∈ grid_neighbors self id →
  id ∈ grid_neighbors self w ↔ in_bounds self id = true ∧ id ∉ walls self.
Proof.
  rewrite !grid_neighbors_elem. intros (Hadj%adjacent_sym & _). tauto.
Qed.

(** X3. [SquareGrid.neighbors] returns at most four locations, none of them
    twice, and never the location itself. *)
Theorem grid_neighbors_nodup self id :
  NoDup (grid_neighbors self id) ∧
  (length (grid_neighbors self id) ≤ 4)%nat ∧
  id ∉ grid_neighbors self id.
Proof.
  split_and!.
  - unfold grid_neighbors. destruct id as [x y].
    assert (NoDup [(x + 1, y); (x - 1, y); (x, y - 1); (x, y + 1)]) as Hnd.
    { rewrite !NoDup_cons, !elem_of_cons, !elem_of_nil.
      split_and!; [naive_solver lia..|apply NoDup_nil_2]. }
    case_bool_decide; repeat apply NoDup_filter; [|done].
    by rewrite reverse_Permutation.
  - unfold grid_neighbors. destruct id as [x y].
    case_bool_decide;
      (etrans; [apply length_filter|]); (etrans; [apply length_filter|]);
      by rewrite ?length_reverse.
  - rewrite grid_neighbors_elem. unfold adjacent. lia.
Qed.

(** The grid together with any start location is a finite well formed
    graph. *)
Lemma weighted_grid_well_formed_from (self : GridWithWeights) start :
  well_formed self ({[start]} ∪ list_to_set (grid_locations self)).
Proof.
  intros v _. exists (grid_neighbors self v). split; [done|].
  intros w Hw. apply elem_of_union_r, elem_of_list_to_set.
  by apply (grid_neighbors_locations self v).
Qed.

(** X4. With a positive width, [from_id_width] is the inverse of numbering
    the locations row by row: it sends [x + y * width] to [(x, y)] when
    [0 <= x < width], every [id] is the number of the location it returns,
    and the numbers from 0 to [width * height - 1] give locations in the
    bounds of a grid of that width and height. *)
Theorem from_id_width_inverse width :
  0 < width →
  (∀ x y, 0 ≤ x < width → from_id_width (x + y * width) width = Some (x, y)) ∧
  (∀ id : Z, ∃ x y, from_id_width id width = Some (x, y) ∧
                0 ≤ x < width ∧ id = x + y * width) ∧
  (∀ (id : Z) height ws, 0 ≤ id < width * height →
     ∃ loc, from_id_width id width = Some loc ∧
            in_bounds {| width := width; height := height; walls := ws |} loc
              = true).
Proof.
  intros Hwidth. unfold from_id_width.
  rewrite bool_decide_eq_false_2 by lia. split_and!.
  - intros x y Hx. f_equal. f_equal.
    + rewrite Z.mod_add by lia. apply Z.mod_small. lia.
    + rewrite Z.div_add by lia. rewrite Z.div_small by lia. lia.
  - intros id. exists (id `mod` width), (id `div` width).
    split_and!; [done|apply Z.mod_pos_bound; lia..|].
    rewrite (Z.div_mod id width) at 1 by lia. lia.
  - intros id height ws Hid. eexists. split; [done|]. simpl.
    pose proof (Z.mod_pos_bound id width Hwidth).
    assert (0 ≤ id `div` width) by (apply Z.div_pos; lia).
    assert (id `div` width < height).
    { apply Z.div_lt_upper_bound; lia. }
    rewrite !bool_decide_eq_true_2 by lia. done.
Qed.

(** With width 0 the division raises. *)
Example from_id_width_zero (id : Z) : from_id_width id 0 = None.
Proof. done. Qed.
End grid_proofs.

(** ** Path reconstruction on any table *)

Section reconstruct_more.
Import Dijkstra.
Context `{Countable Location}.
Implicit Types (came_from : gmap Location (option Location)).
Implicit Types (start goal : Location) (path acc : list Location).

Lemma backlinked_cons came_from a b rest :
  backlinked came_from (a :: b :: rest) ↔
  came_from !! b = Some (Some a) ∧ backlinked came_from (b :: rest).
Proof. done. Qed.

(** The loop of [reconstruct_path] appends to [path] and keeps it linked by
    the backpointers. *)
Lemma walk_back_linked came_from start fuel current acc r :
  walk_back fuel came_from start current acc = Ret r →
  (∀ c, current = Some c → backlinked came_from (c :: reverse acc)) →
  backlinked came_from (start :: reverse r) ∧ ∃ chain, r = acc ++ chain.
Proof.
  revert current acc. induction fuel as [|fuel IH]; intros current acc; simpl.
  - case_decide as Hcur; [|done]. intros [= <-] Hlinked. split; [by apply Hlinked|].
    exists []. by rewrite app_nil_r.
  - case_decide as Hcur.
    { intros [= <-] Hlinked. split; [by apply Hlinked|].
      exists []. by rewrite app_nil_r. }
    destruct current as [c|]; [|done]. unfold getitem.
    destruct (came_from !! c) as [next|] eqn:Ec; [|done]. simpl.
    intros Hwalk Hlinked.
    destruct (IH next (acc ++ [c]) Hwalk) as [Hr (chain & ->)].
    + intros c' ->. rewrite reverse_snoc. apply backlinked_cons.
      split; [done|]. by apply (Hlinked c).
    + split; [done|]. exists (c :: chain). by rewrite <-app_assoc.
Qed.

Lemma walk_back_head came_from start fuel v r :
  walk_back fuel came_from start (Some v) [] = Ret r →
  (v = start ∧ r = []) ∨ head r = Some v.
Proof.
  destruct fuel as [|fuel]; simpl.
  - case_decide as Hcur; [|done]. intros [= <-]. left. by injection Hcur.
  - case_decide as Hcur; [intros [= <-]; left; by injection Hcur|].
    unfold getitem. destruct (came_from !! v) as [next|] eqn:Ev; [|done].
    simpl. intros Hwalk. right.
    destruct (walk_back_linked _ _ _ _ _ _ Hwalk) as [_ (chain & ->)]; [|done].
    intros c ->. by split.
Qed.

Lemma reconstruct_path_shape fuel came_from start goal path :
  reconstruct_path fuel came_from start goal = Ret path →
  (came_from !! goal = None ∧ path = []) ∨
  (is_Some (came_from !! goal) ∧
   head path = Some start ∧ last path = Some goal ∧
   backlinked came_from path).
Proof.
  unfold reconstruct_path. destruct (came_from !! goal) as [b|] eqn:Egoal.
  - destruct (walk_back fuel came_from start (Some goal) []) as [r| |] eqn:Hwalk;
      [|done..]. simpl. intros [= <-]. right.
    rewrite reverse_snoc. split_and!; [done..| |].
    + destruct (walk_back_head _ _ _ _ _ Hwalk) as [[-> ->]|Hhead]; [done|].
      rewrite last_cons, last_reverse, Hhead. done.
    + apply (walk_back_linked _ _ _ _ _ _ Hwalk). by intros c [= <-].
  - intros [= <-]. by left.
Qed.

(** A chain that ends before it reaches [start] makes the walk raise. *)
Lemma walk_back_raises came_from start n v acc :
  (∀ m, ancestor came_from m v ≠ Some start) →
  ancestor came_from n v = None →
  walk_back (S n) came_from start (Some v) acc = Raise KeyError.
Proof.
  revert v acc. induction n as [|n IH]; intros v acc Hstart; [done|].
  intros Hend.
  assert (v ≠ start) as Hv by (intros ->; by apply (Hstart O)).
  change (walk_back (S (S n)) came_from start (Some v) acc)
    with (if decide (Some v = Some start) then Ret acc
          else current ← getitem came_from v;
               walk_back (S n) came_from start current (acc ++ [v])).
  rewrite decide_False by congruence. unfold getitem.
  simpl in Hend. destruct (came_from !! v) as [[u|]|] eqn:Ev; simpl.
  - apply IH; [|done]. intros m Hm. apply (Hstart (S m)). simpl.
    by rewrite Ev.
  - done.
  - done.
Qed.
End reconstruct_more.

(** ** Dijkstra's search, whatever the costs *)

Section dijkstra_sound.
Import Dijkstra.
Local Open Scope Z_scope.
Context `{Countable Location, Less Location}.
Context {G : Type} `{!WeightedGraph Location G} (graph : G).
Implicit Types (st : state Location) (nodes : gset Location).
Implicit Types (start goal current next u v w : Location).

Lemma dijkstra_init_sound start : sound_inv graph start (dijkstra_init start).
Proof.
  split_and!; simpl.
  - intros v cv [[-> <-]|[_ ?]]%lookup_insert_Some; [constructor|done].
  - intros v u [[_ ?]|[_ ?]]%lookup_insert_Some; done.
  - unfold PriorityQueue.put, heapq.heappush, PriorityQueue.new.
    intros e ->%list_elem_of_singleton. simpl. by rewrite lookup_insert_eq.
  - by rewrite !dom_insert_L, !dom_empty_L.
Qed.

Lemma relax_sound start current st next st' :
  relax graph current st next = Ret st' →
  edge graph current next →
  sound_inv graph start st → sound_inv graph start st'.
Proof.
  intros (cc & Ecc & [[-> _]|[-> _]])%relax_cases Hedge; [done|].
  intros (Hwalk & Hfrom & Hfr & Hkeys). unfold improved. rewrite Ecc.
  split_and!; simpl.
  - intros v cv [[<- <-]|[_ Ev]]%lookup_insert_Some; [|by apply Hwalk].
    apply walk_edge; [by apply Hwalk|done].
  - intros v u [[<- [= <-]]|[_ Ev]]%lookup_insert_Some.
    + split; [done|]. destruct (decide (current = next)) as [->|].
      * by rewrite lookup_insert_eq.
      * rewrite lookup_insert_ne by done. by rewrite Ecc.
    + destruct (Hfrom v u Ev) as [? Hu]. split; [done|].
      destruct (decide (u = next)) as [->|].
      * by rewrite lookup_insert_eq.
      * by rewrite lookup_insert_ne.
  - unfold PriorityQueue.put, heapq.heappush.
    intros e [->|He]%elem_of_cons; simpl.
    + by rewrite lookup_insert_eq.
    + destruct (decide (e.2 = next)) as [->|].
      * by rewrite lookup_insert_eq.
      * rewrite lookup_insert_ne by done. by apply Hfr.
  - by rewrite !dom_insert_L, Hkeys.
Qed.

Lemma for_neighbors_sound start current next_list st st' :
  for_neighbors graph current next_list st = Ret st' →
  (∀ w, w ∈ next_list → edge graph current w) →
  sound_inv graph start st → sound_inv graph start st'.
Proof.
  revert st. induction next_list as [|next rest IH]; simpl; intros st.
  - by intros [= <-].
  - destruct (relax graph current st next) as [st1| |] eqn:Hrelax; [|done..].
    simpl. intros Hfor Hedges Hinv.
    eapply IH; [done|intros; apply Hedges; by right|].
    eapply relax_sound; [done|apply Hedges; by left|done].
Qed.

Lemma without_frontier_sound start st rest :
  (∀ e, e ∈ rest → e ∈ frontier st) →
  sound_inv graph start st → sound_inv graph start (without_frontier st rest).
Proof.
  intros Hsub (Hwalk & Hfrom & Hfr & Hkeys). split_and!; simpl; auto.
Qed.

Lemma dijkstra_loop_sound start goal fuel st dq st' dq' :
  dijkstra_loop graph goal fuel st dq = Ret (st', dq') →
  sound_inv graph start st → sound_inv graph start st'.
Proof.
  revert st dq. induction fuel as [|fuel IH]; intros st dq; simpl;
    destruct (PriorityQueue.empty (frontier st)) eqn:Hempty; try done.
  1,2: by intros [= <- <-].
  destruct (PriorityQueue.get (frontier st)) as [[current rest]| |] eqn:Hget;
    [|done..]. simpl.
  destruct (get_spec _ _ _ Hget) as (prio & Hin & Hsub & _).
  case_decide as Hcur.
  - intros [= <- <-]. by apply (without_frontier_sound start st rest).
  - destruct (neighbors graph current) as [next_list| |] eqn:Hn; [|done..].
    simpl.
    destruct (for_neighbors graph current next_list _) as [st1| |] eqn:Hfor;
      [|done..]. simpl.
    intros Hloop Hinv. eapply IH; [done|].
    eapply for_neighbors_sound; [done| |].
    + intros w. by apply neighbors_edge.
    + by apply (without_frontier_sound start st rest).
Qed.

Lemma dijkstra_search_sound start goal fuel came_from' cost_so_far' :
  dijkstra_search graph fuel start goal = Ret (came_from', cost_so_far') →
  ∃ st', sound_inv graph start st' ∧
         came_from' = came_from st' ∧ cost_so_far' = cost_so_far st'.
Proof.
  intros (st' & dq' & Hrun & -> & ->)%dijkstra_search_inv.
  exists st'. split; [|done].
  eapply dijkstra_loop_sound; [exact Hrun|apply dijkstra_init_sound].
Qed.

(** *** No exception on a well formed graph *)



End dijkstra_sound.

(** ** What [dijkstra_search] returns *)

Section dijkstra_more.
Import Dijkstra.
Local Open Scope Z_scope.
Context `{Countable Location, Less Location}.
Context {G : Type} `{!WeightedGraph Location G} (graph : G).
Implicit Types (start goal u v w : Location).

Lemma backlinked_is_path (came_from : gmap Location (option Location))
    (path : list Location) :
  (∀ v u, came_from !! v = Some (Some u) → edge graph u v) →
  backlinked came_from path → is_path graph path.
Proof.
  intros Hedges. induction path as [|a path IH]; [done|].
  destruct path as [|b path]; [done|].
  intros [Hab Hrest]. split; [by apply Hedges|by apply IH].
Qed.

Lemma is_path_lookup (path : list Location) (i : nat) a b :
  is_path graph path → path !! i = Some a → path !! S i = Some b →
  edge graph a b.
Proof.
  revert i. induction path as [|x path IH]; intros i; [done|].
  destruct path as [|y path]; [by destruct i|].
  intros [Hxy Hrest]. destruct i as [|i].
  - by intros [= <-] [= <-].
  - simpl. apply (IH i Hrest).
Qed.



(** X7. With non-negative costs, the tables that [dijkstra_search] returns
    agree with each other: [start] has cost 0 and is the only key whose
    backpointer is [None], every other backpointer [came_from[v] = u]
    satisfies [cost_so_far[v] = cost_so_far[u] + cost(u, v)], and no
    recorded cost is negative. *)
Theorem dijkstra_tables_consistent start goal fuel came_from cost_so_far :
  nonneg_costs graph →
  dijkstra_search graph fuel start goal = Ret (came_from, cost_so_far) →
  came_from !! start = Some None ∧
  cost_so_far !! start = Some 0 ∧
  (∀ v, came_from !! v = Some None → v = start) ∧
  (∀ v u, came_from !! v = Some (Some u) →
     ∃ cu, cost_so_far !! u = Some cu ∧
           cost_so_far !! v = Some (cu + cost graph u v)) ∧
  (∀ v cv, cost_so_far !! v = Some cv → 0 ≤ cv).
Proof.
  intros Hnonneg (st' & dq' & Hrun & -> & ->)%dijkstra_search_inv.
  destruct (dijkstra_run_post graph start Hnonneg goal fuel st' dq' Hrun)
    as (dq & fr & Hinv & _).
  split_and!.
  - apply (inv_start_from _ _ _ _ _ Hinv).
  - apply (inv_start_cost _ _ _ _ _ Hinv).
  - apply (inv_root _ _ _ _ _ Hinv).
  - intros v u Ev.
    by destruct (inv_from _ _ _ _ _ Hinv v u Ev) as (_ & _ & _ & Hcost).
  - intros v cv Ev. eapply walk_nonneg; [done|].
    by apply (inv_walk _ _ _ _ _ Hinv).
Qed.

(** X8. Whatever the costs are, when [reconstruct_path] returns on the
    [came_from] of a search, the sequence it returns is a path of the graph:
    each location is a neighbour of the one before it; it is empty exactly
    when [goal] has no entry, and otherwise goes from [start] to [goal]. *)
Theorem reconstructed_path_is_path start goal fuel came_from cost_so_far
    fuel' path :
  dijkstra_search graph fuel start goal = Ret (came_from, cost_so_far) →
  reconstruct_path fuel' came_from start goal = Ret path →
  is_path graph path ∧
  (path = [] ↔ came_from !! goal = None) ∧
  (path ≠ [] → path_from_to graph start goal path).
Proof.
  intros (st' & (_ & Hfrom & _) & -> & ->)%dijkstra_search_sound Hrec.
  assert (∀ v u, Dijkstra.came_from st' !! v = Some (Some u) → edge graph u v)
    as Hedges by (intros v u Ev; by apply Hfrom).
  destruct (reconstruct_path_shape _ _ _ _ _ Hrec)
    as [[Hgoal ->]|([b Hb] & Hhead & Hlast & Hlinked)].
  - split_and!; done.
  - pose proof (backlinked_is_path _ _ Hedges Hlinked) as Hpath.
    split_and!; [done| |done].
    split; [by intros ->|]. intros Hnone. by rewrite Hnone in Hb.
Qed.
End dijkstra_more.

(** ** What [reconstruct_path] returns and raises *)

Section reconstruct_claims.
Import Dijkstra.
Context `{Countable Location}.
Implicit Types (came_from : gmap Location (option Location)).
Implicit Types (start goal : Location) (path : list Location).

(** X9. On any table, a sequence that [reconstruct_path] returns is empty
    exactly when [goal] has no entry; otherwise it starts with [start],
    ends with [goal], and each of its locations is the backpointer of the
    next one. *)
Theorem reconstruct_path_links fuel came_from start goal path :
  reconstruct_path fuel came_from start goal = Ret path →
  (path = [] ↔ came_from !! goal = None) ∧
  (path ≠ [] →
   head path = Some start ∧ last path = Some goal ∧
   backlinked came_from path).
Proof.
  intros [[Hgoal ->]|([b Hb] & Hhead & Hlast & Hlinked)]%reconstruct_path_shape.
  - done.
  - split; [|done]. split; [by intros ->|].
    intros Hnone. by rewrite Hnone in Hb.
Qed.

(** X10. When [goal] has an entry and its chain of backpointers ends, at a
    [None] or at a location without entry, before it reaches [start],
    [reconstruct_path] raises [KeyError]: it does not return the empty
    sequence. *)
Theorem reconstruct_path_key_error came_from start goal n :
  is_Some (came_from !! goal) →
  (∀ m, ancestor came_from m goal ≠ Some start) →
  ancestor came_from n goal = None →
  reconstruct_path (S n) came_from start goal = Raise KeyError.
Proof.
  intros [b Hb] Hstart Hend. unfold reconstruct_path. rewrite Hb.
  by rewrite walk_back_raises.
Qed.
End reconstruct_claims.

(** ** Searching a grid *)

Section grid_search.
Import Dijkstra.
Local Open Scope Z_scope.
Implicit Types (self : GridWithWeights) (start goal : GridLocation).

(** X11. On a grid whose weights are non-negative, [dijkstra_search]
    returns for every start and every goal, also for a start that is a wall
    or out of bounds. *)
Theorem grid_search_returns self start goal :
  map_Forall (λ _ weight, 0 ≤ weight) (weights self) →
  ∃ fuel came_from cost_so_far,
    dijkstra_search self fuel start goal = Ret (came_from, cost_so_far).
Proof.
  intros Hweights.
  apply (dijkstra_search_terminates self
           ({[start]} ∪ list_to_set (grid_locations self))).
  - apply weighted_grid_well_formed_from.
  - set_solver.
  - by apply weighted_grid_nonneg.
Qed.

(** X12. On a grid, whatever its weights, each step of a path that
    [reconstruct_path] returns on the [came_from] of a search goes to an
    adjacent location that is in bounds and is no wall. *)
Theorem grid_path_walkable self start goal fuel came_from cost_so_far
    fuel' path (i : nat) a b :
  dijkstra_search self fuel start goal = Ret (came_from, cost_so_far) →
  reconstruct_path fuel' came_from start goal = Ret path →
  path !! i = Some a → path !! S i = Some b →
  adjacent a b ∧ in_bounds self b = true ∧ b ∉ walls self.
Proof.
  intros (st' & (_ & Hfrom & _) & -> & ->)%dijkstra_search_sound Hrec Ha Hb.
  assert (is_path self path) as Hpath.
  { destruct (reconstruct_path_shape _ _ _ _ _ Hrec)
      as [[_ ->]|(_ & _ & _ & Hlinked)]; [done|].
    eapply backlinked_is_path; [|done]. intros v u Ev. by apply Hfrom. }
  apply (grid_neighbors_elem self a b).
  apply (is_path_lookup self path i a b Hpath Ha Hb).
Qed.
End grid_search.

(** ** More on breadth first search *)

Section bfs_more.
Import BFS.
Context `{Countable Location} {G : Type} `{!Graph Location G} (graph : G).
Implicit Types (st : state Location) (nodes : gset Location).
Implicit Types (start current next : Location) (p : point Location).

Lemma step_reached_enqueued p p' :
  step graph p p' →
  (∀ x, x ∈ dom (reached (vars p)) → x ∈ enqueued p) →
  (∀ x, x ∈ dom (reached (vars p')) → x ∈ enqueued p').
Proof.
  destruct 1 as [st current rest nl q Hget Hn|st next rest q Hnone
                |st next rest q Hsome|st q]; simpl; try done.
  - intros Hin x. rewrite visit_neighbor_dom, elem_of_app.
    rewrite list_elem_of_singleton. set_solver.
  - intros Hin x. rewrite visit_neighbor_dom.
    destruct Hsome as [b Hb].
    apply (elem_of_dom_2 (D := gset Location)) in Hb. set_solver.
Qed.

Lemma during_enqueued start p :
  during graph start p →
  enqueued_once p ∧
  enqueued p = visited (vars p) ++ frontier (vars p) ∧
  (∀ x, x ∈ dom (reached (vars p)) → x ∈ enqueued p).
Proof.
  unfold during. revert p. apply rtc_ind_r.
  - split_and!; [split|done|]; simpl.
    + apply NoDup_singleton.
    + intros x ->%list_elem_of_singleton. set_solver.
    + intros x. rewrite dom_insert_L, dom_empty_L. set_solver.
  - intros p p' _ Hstep (Honce & Heq & Hin). split_and!.
    + by eapply step_enqueued_once.
    + by eapply step_enqueued_eq.
    + by eapply step_reached_enqueued.
Qed.

(** X13. When [breadth_first_search(graph, start)] ends, in any graph, it
    has printed "Visiting" once for each location that a directed path
    connects to [start], and for no other location. *)
Theorem bfs_visits_once start fuel st' :
  breadth_first_search graph fuel start = Ret st' →
  NoDup (visited st') ∧
  ∀ L, L ∈ visited st' ↔ reachable graph start L.
Proof.
  intros Hrun.
  destruct (bfs_end_during graph start fuel st' Hrun) as [q Hq].
  destruct (during_enqueued start _ Hq) as ([Hnd Hin] & Heq & Hall).
  destruct (bfs_loop_inv graph start _ _ _ (bfs_init_inv graph start) Hrun)
    as [_ Hempty].
  simpl in *. destruct (frontier st'); [|done].
  rewrite app_nil_r in Heq. subst q. split; [done|]. intros L.
  rewrite <-(bfs_reached_exact_partial graph start fuel st' Hrun).
  split; auto.
Qed.

(** *** Exceptions of [neighbors] *)

Lemma visit_neighbor_asked st next :
  (∀ x, x ∈ dom (reached st) →
     x ∈ frontier st ∨ ∃ l, neighbors graph x = Ret l) →
  ∀ x, x ∈ dom (reached (visit_neighbor st next)) →
     x ∈ frontier (visit_neighbor st next) ∨ ∃ l, neighbors graph x = Ret l.
Proof.
  intros Hasked x. rewrite visit_neighbor_dom, visit_neighbor_frontier.
  destruct (reached st !! next) eqn:E.
  - apply (elem_of_dom_2 (D := gset Location)) in E.
    intros Hx. apply Hasked. set_solver.
  - rewrite elem_of_union, elem_of_singleton, elem_of_app.
    rewrite list_elem_of_singleton. intros [->|Hx]; [by auto|].
    destruct (Hasked x Hx); auto.
Qed.

Lemma for_asked st next_list :
  (∀ x, x ∈ dom (reached st) →
     x ∈ frontier st ∨ ∃ l, neighbors graph x = Ret l) →
  ∀ x, x ∈ dom (reached (foldl visit_neighbor st next_list)) →
     x ∈ frontier (foldl visit_neighbor st next_list) ∨
     ∃ l, neighbors graph x = Ret l.
Proof.
  revert st. induction next_list as [|next rest IH]; simpl; intros st Hasked;
    [done|].
  by apply IH, visit_neighbor_asked.
Qed.

Lemma bfs_loop_asked fuel st st' :
  bfs_loop graph fuel st = Ret st' →
  (∀ x, x ∈ dom (reached st) →
     x ∈ frontier st ∨ ∃ l, neighbors graph x = Ret l) →
  ∀ x, x ∈ dom (reached st') → ∃ l, neighbors graph x = Ret l.
Proof.
  revert st. induction fuel as [|fuel IH]; intros st; simpl;
    destruct (Queue.empty (frontier st)) eqn:Hempty; try done.
  1,2: intros [= <-] Hasked x Hx; destruct (frontier st); [|done];
       destruct (Hasked x Hx) as [Hin|?]; [by apply elem_of_nil in Hin|done].
  unfold visit.
  destruct (frontier st) as [|current rest] eqn:Efr; [done|]. simpl.
  destruct (neighbors graph current) as [next_list| |] eqn:Hn; [|done..].
  simpl. intros Hloop Hasked. apply (IH _ Hloop). apply for_asked. simpl.
  intros x Hx. destruct (Hasked x Hx) as [Hin|?]; [|by right].
  apply elem_of_cons in Hin as [->|?]; [right; by eexists|by left].
Qed.

(** X14. [breadth_first_search(graph, start)] ends normally only if
    [graph.neighbors] raises on no location that a directed path connects
    to [start]; for a [SimpleGraph], only if each of them is a key of
    [edges]. *)
Theorem bfs_returns_only_if start fuel st' L :
  breadth_first_search graph fuel start = Ret st' →
  reachable graph start L →
  ∃ next_list, neighbors graph L = Ret next_list.
Proof.
  intros Hrun HL.
  apply (bfs_loop_asked fuel (bfs_init start) st' Hrun).
  - simpl. intros x Hx. left. unfold Queue.put, Queue.new.
    rewrite dom_insert_L, dom_empty_L in Hx. set_solver.
  - by apply (bfs_reached_exact_partial graph start fuel st' Hrun).
Qed.

(** *** A location on which [neighbors] raises *)


End bfs_more.

(** ** The queues *)

Section queues.
Import Dijkstra.
Local Open Scope Z_scope.

Lemma foldl_put {T} (self : BFS.Queue.t T) (items : list T) :
  foldl BFS.Queue.put self items = self ++ items.
Proof.
  revert self. induction items as [|x items IH]; intros self; simpl.
  - by rewrite app_nil_r.
  - rewrite IH. unfold BFS.Queue.put. by rewrite <-app_assoc.
Qed.

(** X16. The queue of the breadth first search is first in, first out:
    after [put(x)] and then any more [put]s on a new queue, [get()] returns
    [x] and leaves the queue that the later [put]s alone would have made;
    on a queue that is empty [get()] raises [IndexError]. *)
Theorem queue_first_in_first_out {T} (x : T) (items : list T) :
  BFS.Queue.get (foldl BFS.Queue.put BFS.Queue.new (x :: items))
    = Ret (x, foldl BFS.Queue.put BFS.Queue.new items) ∧
  BFS.Queue.empty (foldl BFS.Queue.put BFS.Queue.new (x :: items)) = false ∧
  BFS.Queue.get (BFS.Queue.new : BFS.Queue.t T) = Raise IndexError.
Proof.
  simpl. rewrite !foldl_put. unfold BFS.Queue.put, BFS.Queue.new. done.
Qed.


End queues.

(** ** Drawing *)

Section drawing.
Import Dijkstra.
Local Open Scope Z_scope.
Implicit Types (graph : SquareGrid) (id : GridLocation) (style : Style.t).

Lemma string_length_app (a b : string) :
  String.length (a +:+ b) = (String.length a + String.length b)%nat.
Proof. induction a as [|c a IH]; simpl; [done|]. by rewrite IH. Qed.

Lemma string_concat_length (k : nat) (l : list string) :
  Forall (λ s, String.length s = k) l →
  String.length (String.concat "" l) = (length l * k)%nat.
Proof.
  induction 1 as [|s l Hs _ IH]; [done|].
  destruct l as [|s' l].
  - simpl. lia.
  - change (String.concat "" (s :: s' :: l))
      with (s +:+ "" +:+ String.concat "" (s' :: l)).
    rewrite !string_length_app, IH. simpl. lia.
Qed.

Lemma string_times_length (s : string) (n : Z) :
  String.length (string_times s n) = (Z.to_nat n * String.length s)%nat.
Proof.
  unfold string_times.
  rewrite (string_concat_length (String.length s)).
  - by rewrite length_replicate.
  - by apply Forall_replicate.
Qed.

Lemma format_left2_length (n : Z) :
  -9 ≤ n ≤ 99 → String.length (format_left2 n) = 2%nat.
Proof.
  intros Hn.
  assert (Forall (λ n, String.length (format_left2 n) = 2%nat)
            (seqZ (-9) 109)) as Hall by compute_done.
  rewrite Forall_forall in Hall. apply Hall, elem_of_seqZ. lia.
Qed.

Lemma draw_tile_length graph id style :
  (∀ number n, Style.number style = Some number → number !! id = Some n →
     -9 ≤ n ≤ 99) →
  String.length (draw_tile graph id style) = 3%nat.
Proof.
  intros Hnumber. unfold draw_tile. destruct id as [x1 y1]. cbv zeta.
  repeat first [done | case_bool_decide | case_match].
  all: rewrite string_length_app, format_left2_length; [done|].
  all: eapply Hnumber; eauto.
Qed.

(** X18. Unless a number to draw needs more than two characters (it is
    below -9 or above 99), a tile is three characters wide; so
    [draw_grid] prints [height + 2] lines that all have [3 * width]
    characters, the two borders included. *)
Theorem draw_grid_rectangular graph style :
  (∀ id number n, Style.number style = Some number → number !! id = Some n →
     -9 ≤ n ≤ 99) →
  (∀ id, String.length (draw_tile graph id style) = 3%nat) ∧
  length (draw_grid graph style) = (Z.to_nat (height graph) + 2)%nat ∧
  Forall (λ line, String.length line = (3 * Z.to_nat (width graph))%nat)
         (draw_grid graph style).
Proof.
  intros Hnumber.
  assert (∀ id, String.length (draw_tile graph id style) = 3%nat) as Htile.
  { intros id. apply draw_tile_length. eauto. }
  split_and!; [done| |]; unfold draw_grid.
  - rewrite !length_app, length_fmap, length_seqZ. simpl. lia.
  - rewrite !Forall_app, !Forall_singleton, !string_times_length.
    split_and!; [simpl; lia| |simpl; lia].
    apply Forall_fmap, Forall_forall. intros y _. simpl.
    rewrite (string_concat_length 3).
    + rewrite length_fmap, length_seqZ. lia.
    + apply Forall_fmap, Forall_forall. intros x _. apply Htile.
Qed.

(** A number of three digits makes the tile wider. *)
Example draw_tile_wide :
  draw_tile (grid diagram4) (0, 0)
    {| Style.number := Some {[ (0, 0) := 100 ]}; Style.point_to := None;
       Style.path := None; Style.start := None; Style.goal := None |}
  = " 100".
Proof. compute_done. Qed.

(** X19. In the drawing of a search on a grid,
    [draw_grid(graph, point_to=came_from, start=start, goal=goal)], the tile
    of a location that has a backpointer, and is neither the start nor the
    goal, is an arrow that points to the adjacent location it came from:
    [>] to the east, [<] to the west, [v] to the south, [^] to the north. *)
Theorem draw_search_arrow (self : GridWithWeights) start goal fuel
    came_from cost_so_far x y u :
  dijkstra_search self fuel start goal = Ret (came_from, cost_so_far) →
  came_from !! (x, y) = Some (Some u) →
  (x, y) ≠ start → (x, y) ≠ goal →
  let tile :=
    draw_tile self (x, y)
      {| Style.number := None; Style.point_to := Some came_from;
         Style.path := None; Style.start := Some start;
         Style.goal := Some goal |} in
  (u = (x + 1, y) ∧ tile = " > ") ∨ (u = (x - 1, y) ∧ tile = " < ") ∨
  (u = (x, y + 1) ∧ tile = " v ") ∨ (u = (x, y - 1) ∧ tile = " ^ ").
Proof.
  intros (st' & (_ & Hfrom & _) & -> & ->)%dijkstra_search_sound Eu Hstart
    Hgoal.
  destruct (Hfrom _ _ Eu) as [Hedge _].
  apply (grid_neighbors_elem self u (x, y)) in Hedge as (Hadj & _ & Hwall).
  destruct u as [x2 y2]. unfold adjacent in Hadj. simpl in Hadj.
  unfold draw_tile.
  cbn [Style.number Style.point_to Style.path Style.start Style.goal].
  cbv zeta. unfold GridLocation in *. rewrite Eu.
  rewrite (bool_decide_eq_false_2 ((x, y) = start)) by done.
  rewrite (bool_decide_eq_false_2 ((x, y) = goal)) by done.
  rewrite (bool_decide_eq_false_2 ((x, y) ∈ walls self)) by done.
  assert ((x2 = x + 1 ∧ y2 = y) ∨ (x2 = x - 1 ∧ y2 = y) ∨
          (x2 = x ∧ y2 = y + 1) ∨ (x2 = x ∧ y2 = y - 1))
    as [[-> ->]|[[-> ->]|[[-> ->]|[-> ->]]]] by lia.
  - left. split; [done|].
    rewrite (bool_decide_eq_true_2 (x + 1 = x + 1)) by done.
    by rewrite ?bool_decide_eq_false_2 by lia.
  - right; left. split; [done|].
    rewrite (bool_decide_eq_true_2 (x - 1 = x - 1)) by done.
    by rewrite ?bool_decide_eq_false_2 by lia.
  - right; right; left. split; [done|].
    rewrite (bool_decide_eq_true_2 (y + 1 = y + 1)) by done.
    by rewrite ?bool_decide_eq_false_2 by lia.
  - right; right; right. split; [done|].
    rewrite (bool_decide_eq_true_2 (y - 1 = y - 1)) by done.
    by rewrite ?bool_decide_eq_false_2 by lia.
Qed.
End drawing.

(** ** The order of the visits *)

Section bfs_levels.
Import BFS.
Context `{Countable Location} {G : Type} `{!Graph Location G} (graph : G).
Implicit Types (st : state Location) (nodes : gset Location).
Implicit Types (start current next : Location).

Lemma distance_unique start v n m :
  distance graph start v n → distance graph start v m → n = m.
Proof. intros [H1 H2] [H3 H4]. apply H2 in H3. apply H4 in H1. lia. Qed.

Lemma distance_start start : distance graph start start 0.
Proof. split; [constructor|lia]. Qed.

Lemma closer_refl start a : closer graph start a a.
Proof. intros da db Ha Hb. by rewrite (distance_unique _ _ _ _ Ha Hb). Qed.

(** Every location at most as far as the base is reached. *)
Lemma level_complete start c st base dbase :
  bfs_inv graph start c st → level_inv graph start c st →
  base_of c st base → distance graph start base dbase →
  ∀ m y, nsteps (edge graph) m start y → m ≤ dbase → y ∈ dom (reached st).
Proof.
  intros Hinv Hlev Hbase Hdbase m.
  induction m as [|m IH]; intros y Hsteps Hle.
  { inversion Hsteps; subst. by destruct Hinv. }
  apply nsteps_inv_r in Hsteps as (z & Hz & Hzy).
  assert (z ∈ dom (reached st)) as Hzr by (apply IH; [done|lia]).
  assert (∀ dz, distance graph start z dz → dz ≤ m) as Hdz
    by (intros dz [_ Hmin]; by apply Hmin).
  destruct (inv_expanded _ _ _ _ Hinv z Hzr) as [Hzf|Hexp].
  - (* z waits in the frontier, after the base *)
    exfalso.
    destruct (level_exists _ _ _ _ Hlev z) as [dz Hdist];
      [apply elem_of_app; by right|].
    assert (closer graph start base z) as Hc;
      [|specialize (Hdz _ Hdist); specialize (Hc _ _ Hdbase Hdist); lia].
    destruct c as [[current rest]|]; simpl in Hbase.
    + subst base.
      pose proof (level_current _ _ _ _ Hlev _ _ eq_refl) as Hlast.
      apply last_Some in Hlast as [V' HV].
      eapply (StronglySorted_app_1_elem_of _ _ _ current z
                (level_sorted _ _ _ _ Hlev)); [|done].
      rewrite HV. set_solver.
    + pose proof (StronglySorted_app_1_r _ _ _ (level_sorted _ _ _ _ Hlev))
        as Hsorted.
      destruct (frontier st) as [|b F] eqn:Efr; simplify_eq/=.
      apply elem_of_cons in Hzf as [->|Hzf]; [by apply closer_refl|].
      apply StronglySorted_inv in Hsorted as [_ Hall].
      rewrite Forall_forall in Hall. by eapply Hall.
  - destruct (Hexp y Hzy) as [?|Hpend]; [done|].
    exfalso. destruct c as [[current rest]|]; [|done].
    destruct Hpend as [-> _]. simpl in Hbase. subst base.
    specialize (Hdz _ Hdbase). lia.
Qed.

(** A neighbour of [current] that is not reached yet is one edge further
    than [current]. *)
Lemma level_discovered start current next rest st dc :
  bfs_inv graph start (Some (current, next :: rest)) st →
  level_inv graph start (Some (current, next :: rest)) st →
  distance graph start current dc →
  reached st !! next = None →
  distance graph start next (S dc).
Proof.
  intros Hinv Hlev Hdc Hnone.
  destruct (inv_current _ _ _ _ Hinv _ _ eq_refl) as [_ Hrest].
  split.
  - eapply nsteps_r; [apply Hdc|]. apply Hrest. by left.
  - intros m Hm. destruct (decide (m ≤ dc)); [|lia].
    apply not_elem_of_dom in Hnone. destruct Hnone.
    by eapply (level_complete start _ st current dc).
Qed.

Lemma visit_neighbor_level start current next rest st :
  bfs_inv graph start (Some (current, next :: rest)) st →
  level_inv graph start (Some (current, next :: rest)) st →
  level_inv graph start (Some (current, rest)) (visit_neighbor st next).
Proof.
  intros Hinv Hlev.
  pose proof Hlev as [He Hs Hspan Hcur Hr].
  unfold visit_neighbor. destruct (reached st !! next) eqn:E.
  { split; try done. intros ?? [= <- <-]. by eapply Hcur. }
  pose proof (Hcur _ _ eq_refl) as Hlast.
  pose proof Hlast as [V' HV]%last_Some.
  assert (current ∈ visited st) as Hcv by (rewrite HV; set_solver).
  destruct (He current) as [dc Hdc]; [set_solver|].
  pose proof (level_discovered _ _ _ _ _ _ Hinv Hlev Hdc E) as Hnext.
  split; simpl; unfold Queue.put.
  - intros a. rewrite app_assoc, elem_of_app, list_elem_of_singleton.
    intros [?| ->]; [by apply He|by eexists].
  - rewrite app_assoc. apply StronglySorted_app_2.
    + intros a b Ha ->%list_elem_of_singleton da db Hda Hdb.
      rewrite <-(distance_unique _ _ _ _ Hnext Hdb).
      apply elem_of_app in Ha as [Ha|Ha].
      * assert (da ≤ dc); [|lia].
        rewrite HV in Ha. apply elem_of_app in Ha as [Ha|Ha].
        -- apply StronglySorted_app_1_l in Hs. rewrite HV in Hs.
           eapply (StronglySorted_app_1_elem_of _ _ _ a current Hs);
             [done|set_solver|done..].
        -- apply list_elem_of_singleton in Ha as ->.
           by eapply closer_refl.
      * by eapply (Hspan current a).
    + done.
    + repeat constructor.
  - intros base b dbase db -> Hb Hdbase Hdb.
    rewrite (distance_unique _ _ _ _ Hdbase Hdc).
    apply elem_of_app in Hb as [Hb|Hb].
    + by eapply (Hspan current b).
    + apply list_elem_of_singleton in Hb as ->.
      by rewrite (distance_unique _ _ _ _ Hdb Hnext).
  - intros ?? [= <- <-]. done.
  - intros x. rewrite dom_insert_L, app_assoc, elem_of_app, <-Hr.
    rewrite list_elem_of_singleton. set_solver.
Qed.

Lemma bfs_for_level start current rest st :
  bfs_inv graph start (Some (current, rest)) st →
  level_inv graph start (Some (current, rest)) st →
  level_inv graph start (Some (current, [])) (foldl visit_neighbor st rest).
Proof.
  revert st. induction rest as [|next rest IH]; simpl; intros st Hinv Hlev;
    [done|].
  apply IH; [by apply visit_neighbor_inv|by apply visit_neighbor_level].
Qed.

Lemma bfs_get_level start current rest st next_list :
  level_inv graph start None st →
  Queue.get (frontier st) = Ret (current, rest) →
  level_inv graph start (Some (current, next_list))
    {| frontier := rest; reached := reached st;
       visited := visited st ++ [current] |}.
Proof.
  intros [He Hs Hspan Hcur Hr] Hget.
  destruct (frontier st) as [|c r] eqn:Efr; simplify_eq/=.
  split; simpl; rewrite <-?app_assoc; try done.
  - intros base b dbase db -> Hb. apply (Hspan current b); [by rewrite Efr|].
    by right.
  - intros ?? [= <- <-]. by rewrite last_snoc.
Qed.

Lemma bfs_end_for_level start current st :
  level_inv graph start (Some (current, [])) st →
  level_inv graph start None st.
Proof.
  intros [He Hs Hspan Hcur Hr]. split; try done.
  intros base b dbase db Hbase Hb Hdbase Hdb. simpl in Hbase.
  pose proof (Hcur _ _ eq_refl) as [V' HV]%last_Some.
  destruct (He current) as [dc Hdc]; [rewrite HV; set_solver|].
  assert (db ≤ S dc) by by eapply (Hspan current b).
  assert (dc ≤ dbase); [|lia].
  eapply (StronglySorted_app_1_elem_of _ _ _ current base Hs); [| |done..].
  - rewrite HV. set_solver.
  - destruct (frontier st); simplify_eq/=. by left.
Qed.

Lemma visit_level start st st' :
  bfs_inv graph start None st → level_inv graph start None st →
  visit graph st = Ret st' → level_inv graph start None st'.
Proof.
  intros Hinv Hlev Hv. unfold visit in Hv.
  destruct (Queue.get (frontier st)) as [[current rest]| |] eqn:Hget;
    simplify_eq/=.
  destruct (neighbors graph current) as [next_list| |] eqn:Hn; simplify_eq/=.
  injection Hv as <-.
  eapply bfs_end_for_level, bfs_for_level.
  - eapply bfs_get_inv; eauto.
  - eapply bfs_get_level; eauto.
Qed.

Lemma bfs_init_level start : level_inv graph start None (bfs_init start).
Proof.
  split; simpl; unfold Queue.put, Queue.new; simpl.
  - intros a ->%list_elem_of_singleton. eexists. apply distance_start.
  - repeat constructor.
  - intros base b dbase db [= <-] ->%list_elem_of_singleton Hb Hd.
    rewrite (distance_unique _ _ _ _ Hb Hd). lia.
  - done.
  - intros x. rewrite dom_insert_L, dom_empty_L. set_solver.
Qed.

Lemma bfs_loop_level start fuel st st' :
  bfs_inv graph start None st → level_inv graph start None st →
  bfs_loop graph fuel st = Ret st' → level_inv graph start None st'.
Proof.
  revert st. induction fuel as [|fuel IH]; intros st Hinv Hlev; simpl;
    destruct (Queue.empty (frontier st)) eqn:Hempty; try done.
  - by intros [= <-].
  - by intros [= <-].
  - destruct (visit graph st) as [st1| |] eqn:Hv; [|done..]. simpl.
    intros Hloop. eapply IH; [| |done].
    + by eapply visit_inv.
    + by eapply visit_level.
Qed.

Lemma StronglySorted_lookup {A} (R : relation A) (l : list A) i j a b :
  StronglySorted R l → l !! i = Some a → l !! j = Some b → i < j → R a b.
Proof.
  intros Hs Hi Hj Hlt.
  rewrite <-(take_drop_middle l i a Hi) in Hs, Hj.
  apply StronglySorted_app_1_r, StronglySorted_inv in Hs as [_ Hall].
  rewrite Forall_forall in Hall. apply Hall.
  apply lookup_lt_Some in Hi as Hlen.
  rewrite lookup_app_r in Hj by (rewrite length_take; lia).
  rewrite length_take, Nat.min_l in Hj by lia.
  destruct (j - i) as [|k] eqn:Ek; [lia|]. simpl in Hj.
  by eapply list_elem_of_lookup_2.
Qed.

(** X20. Breadth first search visits the locations in the order of their
    distances to [start]: when it ends, every visited location has a
    distance (a least number of edges of a path from [start]), and a
    location printed earlier is not further from [start] than one printed
    later. *)
Theorem bfs_visits_by_distance start fuel st' :
  breadth_first_search graph fuel start = Ret st' →
  (∀ a, a ∈ visited st' → ∃ d, distance graph start a d) ∧
  ∀ i j a b da db,
    visited st' !! i = Some a → visited st' !! j = Some b → i ≤ j →
    distance graph start a da → distance graph start b db → da ≤ db.
Proof.
  intros Hrun.
  pose proof (bfs_loop_level start fuel _ _ (bfs_init_inv graph start)
                (bfs_init_level start) Hrun) as [He Hs _ _ _].
  split.
  - intros a Ha. apply He. set_solver.
  - intros i j a b da db Hi Hj Hij Hda Hdb.
    destruct (decide (i = j)) as [->|Hne].
    + simplify_eq. by eapply closer_refl.
    + apply StronglySorted_app_1_l in Hs.
      eapply (StronglySorted_lookup _ _ i j a b Hs); [done|done|lia|done..].
Qed.

End bfs_levels.

(** ** Dequeued locations *)

Section dijkstra_dequeued.
Import Dijkstra.
Local Open Scope Z_scope.
Context `{Countable Location, Less Location}.
Context {G : Type} `{!WeightedGraph Location G} (graph : G).
Implicit Types (st : state Location) (nodes closed : gset Location).
Implicit Types (start goal current next u v w : Location).
Implicit Types (p : point Location).

Lemma step_dequeued goal p p' v :
  step graph goal p p' → v ∈ dequeued p → v ∈ dequeued p'.
Proof. destruct 1; simpl; set_solver. Qed.

(** A relaxation does not write the entries of a location whose recorded
    cost is the least cost of a path. *)
Lemma relax_closed start closed current next rest st st' v :
  dijkstra_inv graph start closed (Some (current, next :: rest)) st →
  relax graph current st next = Ret st' →
  v ∈ closed →
  cost_so_far st' !! v = cost_so_far st !! v ∧
  came_from st' !! v = came_from st !! v.
Proof.
  intros Hinv (cc & Hcc & [[-> _]|[-> Hlt]])%relax_cases Hv; [done|].
  unfold improved. rewrite Hcc. simpl.
  destruct (decide (v = next)) as [->|Hne];
    [|by rewrite !lookup_insert_ne].
  exfalso.
  destruct (inv_closed _ _ _ _ _ Hinv next Hv) as (cn & Hcn & Hmin).
  destruct (inv_current _ _ _ _ _ Hinv _ _ eq_refl) as [_ Hrest].
  assert (walk graph start next (cc + cost graph current next)) as Hwalk.
  { constructor; [by eapply inv_walk|]. apply Hrest. by left. }
  specialize (Hmin _ Hwalk). specialize (Hlt _ Hcn). lia.
Qed.

Lemma step_dequeued_final start goal p p' v :
  nonneg_costs graph →
  during graph start goal p → step graph goal p p' → v ∈ dequeued p →
  cost_so_far (vars p') !! v = cost_so_far (vars p) !! v ∧
  came_from (vars p') !! v = came_from (vars p) !! v.
Proof.
  intros Hnonneg Hp Hstep Hv.
  pose proof (during_point_inv graph start Hnonneg goal p Hp) as Hinv.
  unfold point_inv in Hinv.
  destruct Hstep as [st dq Hempty|st rest dq Hget
                    |st current rest nl dq Hget Hne Hn
                    |st st' current next rest dq Hrelax|st current dq];
    simpl in *; try done.
  eapply relax_closed; [done..|]. by apply elem_of_list_to_set.
Qed.

(** X21. With non-negative costs, once [frontier.get()] has returned a
    location, the search never writes its entries of [cost_so_far] and
    [came_from] again: they are the same at every later point of the
    run. *)
Theorem dequeued_entries_final start goal p p' v :
  nonneg_costs graph →
  during graph start goal p → rtc (step graph goal) p p' → v ∈ dequeued p →
  cost_so_far (vars p') !! v = cost_so_far (vars p) !! v ∧
  came_from (vars p') !! v = came_from (vars p) !! v.
Proof.
  intros Hnonneg Hp Hsteps Hv.
  induction Hsteps as [p|p p1 p' Hstep _ IH]; [done|].
  destruct (step_dequeued_final start goal p p1 v) as [<- <-]; [done..|].
  apply IH; [by eapply rtc_r|by eapply step_dequeued].
Qed.

End dijkstra_dequeued.

(** ** The theorems at concrete inputs *)

Import Dijkstra.
Local Open Scope Z_scope.
Local Open Scope string_scope.




(** C4 at the end of the search of the detour graph. *)
Lemma came_from_tree_witness :
  ∃ st' dq',
    dijkstra_run detour 5 0 3 = Ret (st', dq') ∧
    tree_rooted_at 0 (came_from st').
Proof.
  eexists _, _. split; [vm_compute; reflexivity|].
  refine (came_from_tree detour 0 3 (Point _ Returned _) detour_nonneg _).
  apply (dijkstra_run_during detour 0 3 5). vm_compute. reflexivity.
Defined.


(** C6 on [example_table]. *)
Lemma reconstruct_path_terminates_witness :
  ∃ fuel path, reconstruct_path fuel example_table "A" "C" = Ret path.
Proof.
  apply reconstruct_path_terminates. intros k [b Hb].
  destruct (decide (k = "A")) as [->|]; [by exists 0%nat|].
  destruct (decide (k = "B")) as [->|]; [by exists 1%nat|].
  destruct (decide (k = "C")) as [->|]; [by exists 2%nat|].
  unfold example_table in Hb. simpl in Hb.
  rewrite !lookup_insert_ne in Hb by done. by rewrite lookup_empty in Hb.
Defined.

(** C7 at the end of the search of [example_graph] from "A". *)
Lemma bfs_enqueued_at_most_once_witness :
  ∃ p, BFS.during BFS.example_graph "A" p ∧
       BFS.visited (BFS.vars p) = ["A"; "B"; "C"; "D"; "F"; "E"] ∧
       NoDup (BFS.enqueued p) ∧
       BFS.enqueued p
         = (BFS.visited (BFS.vars p) ++ BFS.frontier (BFS.vars p))%list.
Proof.
  eassert (∃ st', BFS.breadth_first_search BFS.example_graph 6 "A" = Ret st'
                  ∧ BFS.visited st' = _) as (st' & Hrun & Hvisited).
  { eexists. split; vm_compute; reflexivity. }
  destruct (bfs_end_during BFS.example_graph "A" 6 st' Hrun) as [q Hq].
  exists (BFS.Point st' BFS.AtWhile q). split; [done|]. split; [done|].
  by apply (bfs_enqueued_at_most_once BFS.example_graph "A").
Defined.

(** C8, as amended, on [example_table]. *)
Lemma reconstruct_path_start_is_goal_witness :
  reconstruct_path 3 example_table "A" "A" = Ret ["A"].
Proof.
  apply reconstruct_path_start_is_goal; [reflexivity|].
  exists None. reflexivity.
Defined.

(** C8 as stated fails on the empty table: with [start == goal] and no
    entry for [goal], [reconstruct_path] returns the empty sequence. *)
Lemma reconstruct_path_start_is_goal_empty_table :
  ¬ ∃ fuel,
      reconstruct_path fuel (∅ : gmap string (option string)) "A" "A"
        = Ret ["A"].
Proof.
  intros [fuel Hfuel]. by rewrite reconstruct_path_absent in Hfuel.
Qed.


(** C10 on the detour graph. *)
Lemma dijkstra_search_same_keys_witness :
  ∃ came_from cost_so_far,
    dijkstra_search detour 5 0 3 = Ret (came_from, cost_so_far) ∧
    ∀ L, is_Some (came_from !! L) ↔ is_Some (cost_so_far !! L).
Proof.
  eexists _, _. split; [vm_compute; reflexivity|].
  apply (dijkstra_search_same_keys detour 5 0 3). vm_compute. reflexivity.
Defined.

(** X2 on [diagram4]: (2, 4) is a neighbour of (1, 4), and (1, 4) of
    (2, 4). *)
Lemma grid_neighbors_symmetric_witness :
  (2, 4) ∈ grid_neighbors diagram4 (1, 4) ∧
  ((1, 4) ∈ grid_neighbors diagram4 (2, 4) ↔
   in_bounds diagram4 (1, 4) = true ∧ (1, 4) ∉ walls diagram4).
Proof.
  split; [compute_done|].
  apply (grid_neighbors_symmetric diagram4 (1, 4) (2, 4)). compute_done.
Defined.

(** X4 for the width of [diagram4]. *)
Lemma from_id_width_inverse_witness :
  from_id_width (3 + 2 * 10) 10 = Some (3, 2).
Proof. refine (proj1 (from_id_width_inverse 10 _) 3 2 _); lia. Defined.



(** X7 on the detour graph. *)
Lemma dijkstra_tables_consistent_witness :
  ∃ came_from cost_so_far,
    dijkstra_search detour 5 0 3 = Ret (came_from, cost_so_far) ∧
    came_from !! 1 = Some (Some 2) ∧
    ∃ cu, cost_so_far !! 2 = Some cu ∧
          cost_so_far !! 1 = Some (cu + cost detour 2 1).
Proof.
  eexists _, _. split; [vm_compute; reflexivity|].
  split; [vm_compute; reflexivity|].
  refine (proj1 (proj2 (proj2 (proj2
            (dijkstra_tables_consistent detour 0 3 5 _ _ detour_nonneg _))))
            1 2 _); vm_compute; reflexivity.
Defined.

(** X8 on the detour graph, from 0 to 1. *)
Lemma reconstructed_path_is_path_witness :
  ∃ came_from cost_so_far,
    dijkstra_search detour 5 0 1 = Ret (came_from, cost_so_far) ∧
    reconstruct_path 5 came_from 0 1 = Ret [0; 2; 1] ∧
    is_path detour [0; 2; 1].
Proof.
  eexists _, _. split; [vm_compute; reflexivity|].
  split; [vm_compute; reflexivity|].
  refine (proj1 (reconstructed_path_is_path detour 0 1 5 _ _ 5 _ _ _));
    vm_compute; reflexivity.
Defined.

(** X9 on [example_table]. *)
Lemma reconstruct_path_links_witness :
  reconstruct_path 3 example_table "A" "C" = Ret ["A"; "B"; "C"] ∧
  backlinked example_table ["A"; "B"; "C"].
Proof.
  split; [vm_compute; reflexivity|].
  refine (proj2 (proj2 (proj2 (reconstruct_path_links 3 example_table
                                 "A" "C" _ _) _))); [|done].
  vm_compute. reflexivity.
Defined.

(** X10 on [example_table], for a start that is no ancestor of "C". *)
Lemma reconstruct_path_key_error_witness :
  reconstruct_path 4 example_table "Z" "C" = Raise KeyError.
Proof.
  apply (reconstruct_path_key_error example_table "Z" "C" 3).
  - by exists (Some "B").
  - intros [|[|[|m]]]; done.
  - reflexivity.
Defined.

(** X11 on [diagram4], from a wall. *)
Lemma grid_search_returns_witness :
  ∃ fuel came_from cost_so_far,
    dijkstra_search diagram4 fuel (1, 7) (8, 3)
      = Ret (came_from, cost_so_far).
Proof. apply grid_search_returns. compute_done. Defined.

(** X12 on [diagram4], from (1, 4) to (2, 3). *)
Lemma grid_path_walkable_witness :
  ∃ came_from cost_so_far path a b,
    dijkstra_search diagram4 20 (1, 4) (2, 3) = Ret (came_from, cost_so_far) ∧
    reconstruct_path 5 came_from (1, 4) (2, 3) = Ret path ∧
    path !! 1%nat = Some a ∧ path !! 2%nat = Some b ∧
    adjacent a b ∧ in_bounds diagram4 b = true ∧ b ∉ walls diagram4.
Proof.
  eexists _, _, _, _, _. split; [vm_compute; reflexivity|].
  split; [vm_compute; reflexivity|].
  split; [vm_compute; reflexivity|].
  split; [vm_compute; reflexivity|].
  refine (grid_path_walkable diagram4 (1, 4) (2, 3) 20 _ _ 5 _ 1 _ _ _ _ _ _);
    vm_compute; reflexivity.
Defined.

(** X13 on [example_graph], from "A". *)
Lemma bfs_visits_once_witness :
  ∃ st',
    BFS.breadth_first_search BFS.example_graph 6 "A" = Ret st' ∧
    NoDup (BFS.visited st') ∧
    ∀ L, L ∈ BFS.visited st' ↔ reachable BFS.example_graph "A" L.
Proof.
  eassert (BFS.breadth_first_search BFS.example_graph 6 "A" = Ret _)
    as Hrun by (vm_compute; reflexivity).
  eexists. split; [exact Hrun|].
  apply (bfs_visits_once BFS.example_graph "A" 6 _ Hrun).
Defined.

(** X14 on [example_graph], from "A", at "F". *)
Lemma bfs_returns_only_if_witness :
  ∃ next_list, neighbors BFS.example_graph "F" = Ret next_list.
Proof.
  eassert (BFS.breadth_first_search BFS.example_graph 6 "A" = Ret _)
    as Hrun by (vm_compute; reflexivity).
  apply (bfs_returns_only_if BFS.example_graph "A" 6 _ "F" Hrun).
  apply (bfs_reached_exact_partial BFS.example_graph "A" 6 _ Hrun).
  compute_done.
Defined.

(** X18 on a grid of two columns and two rows with a wall, drawn with one
    number. *)
Lemma draw_grid_rectangular_witness :
  let graph := {| width := 2; height := 2; walls := [(1, 1)] |} in
  let style := {| Style.number := Some {[ (0, 0) := 14 ]};
                  Style.point_to := None; Style.path := None;
                  Style.start := None; Style.goal := None |} in
  draw_grid graph style = ["______"; " 14 . "; " . ###"; "~~~~~~"] ∧
  Forall (λ line, String.length line = 6%nat) (draw_grid graph style).
Proof.
  intros graph style. split; [vm_compute; reflexivity|].
  refine (proj2 (proj2 (draw_grid_rectangular graph style _))).
  intros id number n [= <-] Hn.
  apply lookup_singleton_Some in Hn as [_ <-]. lia.
Defined.

(** X19 on [diagram4], from (1, 4) to (2, 3): (1, 3) came from (1, 4),
    to the south. *)
Lemma draw_search_arrow_witness :
  ∃ came_from cost_so_far,
    dijkstra_search diagram4 20 (1, 4) (2, 3) = Ret (came_from, cost_so_far) ∧
    came_from !! (1, 3) = Some (Some (1, 4)) ∧
    draw_tile diagram4 (1, 3)
      {| Style.number := None; Style.point_to := Some came_from;
         Style.path := None; Style.start := Some (1, 4);
         Style.goal := Some (2, 3) |} = " v ".
Proof.
  eassert (dijkstra_search diagram4 20 (1, 4) (2, 3) = Ret (_, _))
    as Hsearch by (vm_compute; reflexivity).
  eexists _, _. split; [exact Hsearch|].
  split; [vm_compute; reflexivity|].
  destruct (draw_search_arrow diagram4 (1, 4) (2, 3) 20 _ _ 1 3 (1, 4)
              Hsearch)
    as [[Hu _]|[[Hu _]|[[_ Htile]|[Hu _]]]];
    [vm_compute; reflexivity|done|done|..];
    [done|done|exact Htile|done].
Defined.

(** X20 on [example_graph], from "A": "D" is visited before "E". *)
Lemma bfs_visits_by_distance_witness :
  ∃ st',
    BFS.breadth_first_search BFS.example_graph 6 "A" = Ret st' ∧
    BFS.visited st' = ["A"; "B"; "C"; "D"; "F"; "E"] ∧
    ∀ da db,
      distance BFS.example_graph "A" "D" da →
      distance BFS.example_graph "A" "E" db → (da ≤ db)%nat.
Proof.
  eassert (BFS.breadth_first_search BFS.example_graph 6 "A" = Ret _)
    as Hrun by (vm_compute; reflexivity).
  eexists. split; [exact Hrun|]. split; [reflexivity|].
  intros da db Hda Hdb.
  refine (proj2 (bfs_visits_by_distance BFS.example_graph "A" 6 _ Hrun)
            3%nat 5%nat "D" "E" da db _ _ _ Hda Hdb);
    [reflexivity|reflexivity|lia].
Defined.

(** X21 on the detour graph: 0 is dequeued first, and its entries are the
    same after the relaxation of its edge to 1. *)
Lemma dequeued_entries_final_witness :
  ∃ p p',
    during detour 0 3 p ∧ rtc (step detour 3) p p' ∧ 0 ∈ dequeued p ∧
    cost_so_far (vars p) !! 1 = None ∧
    cost_so_far (vars p') !! 1 = Some 5 ∧
    cost_so_far (vars p') !! 0 = cost_so_far (vars p) !! 0 ∧
    came_from (vars p') !! 0 = came_from (vars p) !! 0.
Proof.
  eassert (during detour 0 3 _) as Hp.
  { unfold during, start_point.
    eapply rtc_l.
    { eapply step_get; [vm_compute; reflexivity|done|vm_compute; reflexivity]. }
    apply rtc_refl. }
  match type of Hp with
  | during _ _ _ ?p => eassert (rtc (step detour 3) p _) as Hsteps
  end.
  { eapply rtc_l; [eapply step_relax; vm_compute; reflexivity|].
    apply rtc_refl. }
  eexists _, _. split; [exact Hp|]. split; [exact Hsteps|].
  split; [compute_done|]. split; [compute_done|]. split; [compute_done|].
  eapply dequeued_entries_final;
    [apply detour_nonneg|exact Hp|exact Hsteps|compute_done].
Defined.
